(** * A to-do list with local-storage persistence (todo-app/src/App.tsx)

    Shallow embedding of the [App] component: the task store (the [todos]
    state cell with [addTodo], [toggleTodo], [deleteTodo], [editTodo] and the
    derived counts) and the persistence bridge (the two [useEffect] hooks
    that mirror the store into [localStorage] under the key 'todos').

    Modelling conventions
    - a JavaScript string is the list of its UTF-16 code units ([list N]);
    - a [number] that holds an integer (every [id] is a [Date.now()] reading)
      is a [Z];
    - React state is passed explicitly: every handler maps an [AppState] to
      the [AppState] of the next render;
    - the two clock reads of [addTodo] ([Date.now()] and
      [new Date().toISOString()]) are inputs of the handler;
    - the effects run in a small monad over a [World] (storage, console,
      state cell) in which a call returns or throws;
    - [JSON.stringify], [JSON.parse] and [localStorage] belong to the
      platform, not to the repository: they are written out after ECMA-262
      (sections on the JSON object) and the Web Storage interface, as far as
      the component uses them. *)

From Stdlib Require Import ZArith NArith List Ascii String Lia.
From Stdlib Require Import Decimal DecimalFacts DecimalN DecimalZ.
From stdpp Require Import gmap list.

Local Open Scope Z_scope.

(** ** Strings *)

Abbreviation jsstring := (list N).

(** The code unit of an ASCII character and the code units of an ASCII
    literal. *)
Definition ch (a : ascii) : N := N_of_ascii a.

Definition str (s : string) : jsstring := List.map ch (list_ascii_of_string s).

(** [if (s)] on a string: only the empty string is falsy. *)
Definition truthy (s : jsstring) : bool :=
  match s with
  | [] => false
  | _ :: _ => true
  end.

(** ** The task store *)

(** [interface Todo]. *)
Record Todo := mkTodo {
  id : Z;
  text : jsstring;
  completed : bool;
  createdAt : jsstring
}.

(** The two state cells of [App]. *)
Record AppState := mkApp {
  todos : list Todo;
  inputValue : jsstring
}.

(** [useState<Todo[]>([])] and [useState<string>('')]. *)
Definition initialState : AppState := {| todos := []; inputValue := [] |}.

Definition setTodos (l : list Todo) (st : AppState) : AppState :=
  {| todos := l; inputValue := inputValue st |}.

Definition setInputValue (v : jsstring) (st : AppState) : AppState :=
  {| todos := todos st; inputValue := v |}.

(** [handleInputChange]: the text field writes its value to [inputValue]. *)
Definition handleInputChange (v : jsstring) (st : AppState) : AppState :=
  setInputValue v st.

(** [addTodo]. [now] is what [Date.now()] returned and [iso] what
    [new Date().toISOString()] returned. *)
Definition addTodo (now : Z) (iso : jsstring) (st : AppState) : AppState :=
  if truthy (inputValue st) then
    let newTodo :=
      {| id := now; text := inputValue st; completed := false; createdAt := iso |} in
    setInputValue [] (setTodos (todos st ++ [newTodo]) st)
  else st.

(** [{ ...todo, completed: !todo.completed }]. *)
Definition flip_completed (todo : Todo) : Todo :=
  {| id := id todo; text := text todo;
     completed := negb (completed todo); createdAt := createdAt todo |}.

(** [{ ...todo, text: newText }]. *)
Definition with_text (newText : jsstring) (todo : Todo) : Todo :=
  {| id := id todo; text := newText;
     completed := completed todo; createdAt := createdAt todo |}.

(** [toggleTodo]. *)
Definition toggleTodo (i : Z) (st : AppState) : AppState :=
  setTodos
    (List.map (fun todo => if id todo =? i then flip_completed todo else todo)
       (todos st))
    st.

(** [deleteTodo]. *)
Definition deleteTodo (i : Z) (st : AppState) : AppState :=
  setTodos (List.filter (fun todo => negb (id todo =? i)) (todos st)) st.

(** [editTodo]. *)
Definition editTodo (i : Z) (newText : jsstring) (st : AppState) : AppState :=
  setTodos
    (List.map (fun todo => if id todo =? i then with_text newText todo else todo)
       (todos st))
    st.

(** [completedCount], [totalCount] and the [Remaining] figure of the stats
    bar, as JavaScript numbers. *)
Definition completedCount (st : AppState) : Z :=
  Z.of_nat (length (List.filter (fun todo => completed todo) (todos st))).

Definition totalCount (st : AppState) : Z :=
  Z.of_nat (length (todos st)).

Definition remainingCount (st : AppState) : Z :=
  totalCount st - completedCount st.

Definition counts (st : AppState) : Z * Z * Z :=
  (totalCount st, completedCount st, remainingCount st).

(** The store operation [add(text)]: the text is typed into the field, then
    the button is pressed. *)
Definition add (newText : jsstring) (now : Z) (iso : jsstring)
    (st : AppState) : AppState :=
  addTodo now iso (handleInputChange newText st).

(** Number of tasks carrying the id [i]. *)
Definition count_id (i : Z) (l : list Todo) : nat :=
  length (List.filter (fun todo => id todo =? i) l).

(** *** Sequences of store operations *)

Inductive Op :=
| OpAdd (newText : jsstring) (now : Z) (iso : jsstring)
| OpToggle (i : Z)
| OpDelete (i : Z)
| OpEdit (i : Z) (newText : jsstring).

Definition step (st : AppState) (o : Op) : AppState :=
  match o with
  | OpAdd newText now iso => add newText now iso st
  | OpToggle i => toggleTodo i st
  | OpDelete i => deleteTodo i st
  | OpEdit i newText => editTodo i newText st
  end.

Definition run (ops : list Op) (st : AppState) : AppState :=
  fold_left step ops st.

(** The [Date.now()] readings taken by the operations of a sequence
    ([addTodo] reads the clock only inside its [if]). *)
Fixpoint add_times (ops : list Op) : list Z :=
  match ops with
  | [] => []
  | OpAdd newText now _ :: r =>
      if truthy newText then now :: add_times r else add_times r
  | _ :: r => add_times r
  end.

(** ** JSON values

    What [JSON.parse] returns.  A number literal denotes [m * 10 ^ e], kept
    exactly and in normal form (binary64 rounding is not modelled; the two
    agree on the integers below [2 ^ 53], which is where every [id] lives).
    An object lists its members in creation order (an engine enumerates
    integer-like keys first; a [Todo] has none). *)

#[local] Unset Elimination Schemes.
Inductive JValue :=
| JNull
| JBool (b : bool)
| JNum (m e : Z)
| JStr (s : jsstring)
| JArr (vs : list JValue)
| JObj (ms : list (jsstring * JValue)).
#[local] Set Elimination Schemes.

(** The runtime value of a [Todo] and of a [Todo[]]: the object literal of
    [addTodo] creates the four properties in this order and the spreads of
    [toggleTodo] and [editTodo] keep it. *)
Definition todo_toJS (t : Todo) : JValue :=
  JObj [ (str "id", JNum (id t) 0);
         (str "text", JStr (text t));
         (str "completed", JBool (completed t));
         (str "createdAt", JStr (createdAt t)) ].

Definition toJS (l : list Todo) : JValue := JArr (List.map todo_toJS l).

(** ** [JSON.stringify] at the type [Todo[]] *)

Definition is_leading_surrogate (c : N) : bool :=
  ((55296 <=? c) && (c <=? 56319))%N.

Definition is_trailing_surrogate (c : N) : bool :=
  ((56320 <=? c) && (c <=? 57343))%N.

(** One lowercase hexadecimal digit. *)
Definition hexdigit (n : N) : N :=
  (if n <? 10 then 48 + n else 87 + n)%N.

(** [UnicodeEscape]: a backslash, [u] and four hexadecimal digits. *)
Definition unicode_escape (c : N) : jsstring :=
  [ch "\"; ch "u";
   hexdigit ((c / 4096) mod 16); hexdigit ((c / 256) mod 16);
   hexdigit ((c / 16) mod 16); hexdigit (c mod 16)]%N.

(** One code unit of [QuoteJSONString] that is not half of a surrogate
    pair: the single-character escapes, [UnicodeEscape] for the other
    control characters and for a lone surrogate, the unit itself
    otherwise. *)
Definition quote_unit (c : N) : jsstring :=
  (if c =? 8 then str "\b"
   else if c =? 9 then str "\t"
   else if c =? 10 then str "\n"
   else if c =? 12 then str "\f"
   else if c =? 13 then str "\r"
   else if c =? 34 then [ch "\"; 34]
   else if c =? 92 then str "\\"
   else if (c <? 32) || is_leading_surrogate c || is_trailing_surrogate c
     then unicode_escape c
   else [c])%N.

(** The characters [QuoteJSONString] puts between the quotes.  A leading
    surrogate followed by a trailing one is a single code point and is
    copied. *)
Fixpoint quote_body (s : jsstring) : jsstring :=
  match s with
  | [] => []
  | c :: r =>
      match r with
      | d :: r' =>
          if is_leading_surrogate c && is_trailing_surrogate d
          then c :: d :: quote_body r'
          else quote_unit c ++ quote_body r
      | [] => quote_unit c
      end
  end.

Definition QuoteJSONString (s : jsstring) : jsstring :=
  34%N :: quote_body s ++ [34%N].

Fixpoint uint_chars (u : Decimal.uint) : jsstring :=
  match u with
  | Decimal.Nil => []
  | Decimal.D0 u => ch "0" :: uint_chars u
  | Decimal.D1 u => ch "1" :: uint_chars u
  | Decimal.D2 u => ch "2" :: uint_chars u
  | Decimal.D3 u => ch "3" :: uint_chars u
  | Decimal.D4 u => ch "4" :: uint_chars u
  | Decimal.D5 u => ch "5" :: uint_chars u
  | Decimal.D6 u => ch "6" :: uint_chars u
  | Decimal.D7 u => ch "7" :: uint_chars u
  | Decimal.D8 u => ch "8" :: uint_chars u
  | Decimal.D9 u => ch "9" :: uint_chars u
  end.

(** [Number::toString] on an integer: its decimal digits, after a minus
    sign when negative (the exponent form starts at [10 ^ 21]). *)
Definition number_toString (z : Z) : jsstring :=
  match Z.to_int z with
  | Decimal.Pos u => uint_chars u
  | Decimal.Neg u => ch "-" :: uint_chars u
  end.

Definition boolean_toString (b : bool) : jsstring :=
  if b then str "true" else str "false".

Fixpoint join_comma (parts : list jsstring) : jsstring :=
  match parts with
  | [] => []
  | p :: r =>
      match r with
      | [] => p
      | _ :: _ => p ++ ch "," :: join_comma r
      end
  end.

(** One member of an object: the quoted key, a colon, the value. *)
Definition member (k v : jsstring) : jsstring :=
  QuoteJSONString k ++ ch ":" :: v.

(** [SerializeJSONObject]: the members in property order, separated by
    commas, between braces (no gap, so no white space). *)
Definition stringify_object (ms : list (jsstring * jsstring)) : jsstring :=
  ch "{" :: join_comma (List.map (fun kv => member (fst kv) (snd kv)) ms)
  ++ [ch "}"].

(** [SerializeJSONArray]. *)
Definition stringify_array (vs : list jsstring) : jsstring :=
  ch "[" :: join_comma vs ++ [ch "]"].

Definition stringify_todo (t : Todo) : jsstring :=
  stringify_object
    [ (str "id", number_toString (id t));
      (str "text", QuoteJSONString (text t));
      (str "completed", boolean_toString (completed t));
      (str "createdAt", QuoteJSONString (createdAt t)) ].

(** [JSON.stringify(todos)]. *)
Definition JSON_stringify (l : list Todo) : jsstring :=
  stringify_array (List.map stringify_todo l).

(** ** [JSON.parse] *)

(** What a parser returns: a value and the rest of the input, a syntax
    error, or that its recursion budget ran out. *)
Inductive presult (A : Type) :=
| POk (a : A) (rest : jsstring)
| PErr
| PFuel.

Arguments POk {A} a rest.
Arguments PErr {A}.
Arguments PFuel {A}.

Definition pmap {A B} (f : A -> B) (r : presult A) : presult B :=
  match r with
  | POk a rest => POk (f a) rest
  | PErr => PErr
  | PFuel => PFuel
  end.

(** JSON white space: space, tab, line feed, carriage return. *)
Definition is_ws (c : N) : bool :=
  ((c =? 32) || (c =? 9) || (c =? 10) || (c =? 13))%N.

Fixpoint skip_ws (s : jsstring) : jsstring :=
  match s with
  | [] => []
  | c :: r => if is_ws c then skip_ws r else s
  end.

Definition hexval (c : N) : option N :=
  (if (48 <=? c) && (c <=? 57) then Some (c - 48)
   else if (97 <=? c) && (c <=? 102) then Some (c - 87)
   else if (65 <=? c) && (c <=? 70) then Some (c - 55)
   else None)%N.

Definition hex4 (h1 h2 h3 h4 : N) : option N :=
  match hexval h1, hexval h2, hexval h3, hexval h4 with
  | Some a, Some b, Some c, Some d => Some (a * 4096 + b * 256 + c * 16 + d)%N
  | _, _, _, _ => None
  end.

(** The character after a backslash, [u] apart. *)
Definition simple_escape (e : N) : option N :=
  (if e =? 34 then Some 34          (* quote *)
   else if e =? 92 then Some 92     (* backslash *)
   else if e =? 47 then Some 47     (* slash *)
   else if e =? 98 then Some 8      (* b *)
   else if e =? 102 then Some 12    (* f *)
   else if e =? 110 then Some 10    (* n *)
   else if e =? 114 then Some 13    (* r *)
   else if e =? 116 then Some 9     (* t *)
   else None)%N.

(** A string literal after its opening quote, up to the closing one. *)
Fixpoint parse_string_body (s : jsstring) : presult jsstring :=
  match s with
  | [] => PErr
  | c :: r =>
      if (c =? 34)%N then POk [] r
      else if (c =? 92)%N then
        match r with
        | [] => PErr
        | e :: r1 =>
            if (e =? 117)%N then
              match r1 with
              | h1 :: h2 :: h3 :: h4 :: r2 =>
                  match hex4 h1 h2 h3 h4 with
                  | Some u => pmap (cons u) (parse_string_body r2)
                  | None => PErr
                  end
              | _ => PErr
              end
            else
              match simple_escape e with
              | Some u => pmap (cons u) (parse_string_body r1)
              | None => PErr
              end
        end
      else if (c <? 32)%N then PErr
      else pmap (cons c) (parse_string_body r)
  end.

Definition digit_of (c : N) : option (Decimal.uint -> Decimal.uint) :=
  (if c =? 48 then Some Decimal.D0
   else if c =? 49 then Some Decimal.D1
   else if c =? 50 then Some Decimal.D2
   else if c =? 51 then Some Decimal.D3
   else if c =? 52 then Some Decimal.D4
   else if c =? 53 then Some Decimal.D5
   else if c =? 54 then Some Decimal.D6
   else if c =? 55 then Some Decimal.D7
   else if c =? 56 then Some Decimal.D8
   else if c =? 57 then Some Decimal.D9
   else None)%N.

(** The longest run of digits at the head of the input. *)
Fixpoint take_digits (s : jsstring) : Decimal.uint * jsstring :=
  match s with
  | [] => (Decimal.Nil, [])
  | c :: r =>
      match digit_of c with
      | Some d => let '(u, r') := take_digits r in (d u, r')
      | None => (Decimal.Nil, s)
      end
  end.

(** Normal form of [m * 10 ^ e]: an integer has exponent zero, any other
    number has a mantissa that ten does not divide. *)
Fixpoint strip_zeros (k : nat) (m e : Z) : Z * Z :=
  match k with
  | O => (m, e)
  | S k' => if m mod 10 =? 0 then strip_zeros k' (m / 10) (e + 1) else (m, e)
  end.

Definition normalize (m e : Z) : Z * Z :=
  if m =? 0 then (0, 0)
  else if 0 <=? e then (m * 10 ^ e, 0)
  else strip_zeros (Z.to_nat (- e)) m e.

Definition number_value (neg : bool) (i f : Decimal.uint) (x : Z) : JValue :=
  let m := Z.of_uint (Decimal.app i f) in
  let '(m', e') :=
    normalize (if neg then - m else m) (x - Z.of_nat (Decimal.nb_digits f)) in
  JNum m' e'.

(** The integer part of a number: a single zero, or digits that start with
    a digit other than zero. *)
Definition parse_int_part (s : jsstring) : option (Decimal.uint * jsstring) :=
  match s with
  | [] => None
  | c :: r =>
      if (c =? 48)%N then Some (Decimal.D0 Decimal.Nil, r)
      else
        match take_digits s with
        | (Decimal.Nil, _) => None
        | (u, r') => Some (u, r')
        end
  end.

(** The optional fraction: a point and at least one digit. *)
Definition parse_frac_part (s : jsstring) : option (Decimal.uint * jsstring) :=
  match s with
  | c :: r =>
      if (c =? 46)%N then
        match take_digits r with
        | (Decimal.Nil, _) => None
        | (f, r') => Some (f, r')
        end
      else Some (Decimal.Nil, s)
  | [] => Some (Decimal.Nil, [])
  end.

(** The optional exponent: [e] or [E], an optional sign, at least one
    digit. *)
Definition parse_exp_part (s : jsstring) : option (Z * jsstring) :=
  match s with
  | c :: r =>
      if ((c =? 101) || (c =? 69))%N then
        let '(neg, r1) :=
          match r with
          | d :: r' =>
              if (d =? 43)%N then (false, r')
              else if (d =? 45)%N then (true, r')
              else (false, r)
          | [] => (false, [])
          end in
        match take_digits r1 with
        | (Decimal.Nil, _) => None
        | (x, r2) => Some (if neg then - Z.of_uint x else Z.of_uint x, r2)
        end
      else Some (0, s)
  | [] => Some (0, [])
  end.

Definition parse_number (s : jsstring) : presult JValue :=
  let '(neg, s1) :=
    match s with
    | c :: r => if (c =? 45)%N then (true, r) else (false, s)
    | [] => (false, [])
    end in
  match parse_int_part s1 with
  | None => PErr
  | Some (i, s2) =>
      match parse_frac_part s2 with
      | None => PErr
      | Some (f, s3) =>
          match parse_exp_part s3 with
          | None => PErr
          | Some (x, s4) => POk (number_value neg i f x) s4
          end
      end
  end.

(** The rest of a keyword. *)
Fixpoint expect (lit s : jsstring) : option jsstring :=
  match lit with
  | [] => Some s
  | c :: lit' =>
      match s with
      | d :: r => if (c =? d)%N then expect lit' r else None
      | [] => None
      end
  end.

Definition parse_keyword (lit : jsstring) (v : JValue) (s : jsstring)
    : presult JValue :=
  match expect lit s with
  | Some r => POk v r
  | None => PErr
  end.

Fixpoint jsstring_eqb (a b : jsstring) : bool :=
  match a, b with
  | [], [] => true
  | x :: a', y :: b' => (x =? y)%N && jsstring_eqb a' b'
  | _, _ => false
  end.

(** Defining a property: a key that the object has keeps its place and
    takes the new value, a new key goes to the end. *)
Fixpoint obj_set (k : jsstring) (v : JValue) (ms : list (jsstring * JValue))
    : list (jsstring * JValue) :=
  match ms with
  | [] => [(k, v)]
  | (k', v') :: r =>
      if jsstring_eqb k' k then (k', v) :: r else (k', v') :: obj_set k v r
  end.

(** The JSON grammar by recursive descent.  [parse_value] reads one value
    after optional white space; [parse_elements] the elements of an array
    whose bracket was read, up to the closing one; [parse_members] the
    members of an object likewise.  Every call spends one unit of [fuel]. *)
Fixpoint parse_value (fuel : nat) (s : jsstring) : presult JValue :=
  match fuel with
  | O => PFuel
  | S fuel' =>
      match skip_ws s with
      | [] => PErr
      | c :: r =>
          if (c =? 123)%N then
            match skip_ws r with
            | d :: r' =>
                if (d =? 125)%N then POk (JObj []) r'
                else parse_members fuel' r []
            | [] => PErr
            end
          else if (c =? 91)%N then
            match skip_ws r with
            | d :: r' =>
                if (d =? 93)%N then POk (JArr []) r'
                else pmap JArr (parse_elements fuel' r)
            | [] => PErr
            end
          else if (c =? 34)%N then pmap JStr (parse_string_body r)
          else if (c =? 116)%N then parse_keyword (str "rue") (JBool true) r
          else if (c =? 102)%N then parse_keyword (str "alse") (JBool false) r
          else if (c =? 110)%N then parse_keyword (str "ull") JNull r
          else parse_number (c :: r)
      end
  end
with parse_elements (fuel : nat) (s : jsstring) : presult (list JValue) :=
  match fuel with
  | O => PFuel
  | S fuel' =>
      match parse_value fuel' s with
      | POk v r =>
          match skip_ws r with
          | d :: r' =>
              if (d =? 44)%N then pmap (cons v) (parse_elements fuel' r')
              else if (d =? 93)%N then POk [v] r'
              else PErr
          | [] => PErr
          end
      | PErr => PErr
      | PFuel => PFuel
      end
  end
with parse_members (fuel : nat) (s : jsstring)
    (acc : list (jsstring * JValue)) : presult JValue :=
  match fuel with
  | O => PFuel
  | S fuel' =>
      match skip_ws s with
      | q :: r =>
          if (q =? 34)%N then
            match parse_string_body r with
            | POk k r1 =>
                match skip_ws r1 with
                | c :: r2 =>
                    if (c =? 58)%N then
                      match parse_value fuel' r2 with
                      | POk v r3 =>
                          match skip_ws r3 with
                          | d :: r4 =>
                              if (d =? 44)%N
                              then parse_members fuel' r4 (obj_set k v acc)
                              else if (d =? 125)%N
                              then POk (JObj (obj_set k v acc)) r4
                              else PErr
                          | [] => PErr
                          end
                      | PErr => PErr
                      | PFuel => PFuel
                      end
                    else PErr
                | [] => PErr
                end
            | _ => PErr
            end
          else PErr
      | [] => PErr
      end
  end.

(** What a JavaScript call does: return a value or throw. *)
Inductive Exn := SyntaxError.

(** [JSON.parse]: one value, white space around it, nothing else.  The
    budget is more than the descent can spend on the text
    ([JSON_parse_budget] below). *)
Definition JSON_parse (s : jsstring) : JValue + Exn :=
  match parse_value (S (2 * length s)) s with
  | POk v r =>
      match skip_ws r with
      | [] => inl v
      | _ :: _ => inr SyntaxError
      end
  | PErr => inr SyntaxError
  | PFuel => inr SyntaxError
  end.

(** ** The persistence bridge *)

(** What the effects of [App] act on: the storage area of the origin (a
    finite map from keys to strings, without a quota), the error console,
    and the [todos] state cell as a runtime value ([JSON.parse] returns
    [any], and [setTodos] takes it unchecked). *)
Record World := mkWorld {
  localStorage : gmap (list N) (list N);
  console : list (jsstring * Exn);
  todosCell : JValue
}.

(** A computation returns a value or throws, and leaves a world. *)
Inductive Outcome (A : Type) :=
| Returned (a : A) (w : World)
| Thrown (e : Exn) (w : World).

Arguments Returned {A} a w.
Arguments Thrown {A} e w.

Definition M (A : Type) : Type := World -> Outcome A.

Definition ret {A} (a : A) : M A := fun w => Returned a w.

Definition bind {A B} (c : M A) (k : A -> M B) : M B :=
  fun w =>
    match c w with
    | Returned a w' => k a w'
    | Thrown e w' => Thrown e w'
    end.

Notation "x <- c ;; k" := (bind c (fun x => k))
  (at level 100, c at next level, right associativity).
Notation "c ;;; k" := (bind c (fun _ => k))
  (at level 100, right associativity).

(** [try { body } catch (error) { handler }]. *)
Definition try_catch {A} (body : M A) (handler : Exn -> M A) : M A :=
  fun w =>
    match body w with
    | Returned a w' => Returned a w'
    | Thrown e w' => handler e w'
    end.

Definition getItem (k : jsstring) : M (option jsstring) :=
  fun w => Returned (localStorage w !! k) w.

Definition setItem (k v : jsstring) : M unit :=
  fun w =>
    Returned tt
      {| localStorage := <[k := v]> (localStorage w);
         console := console w; todosCell := todosCell w |}.

Definition removeItem (k : jsstring) : M unit :=
  fun w =>
    Returned tt
      {| localStorage := delete k (localStorage w);
         console := console w; todosCell := todosCell w |}.

Definition console_error (msg : jsstring) (e : Exn) : M unit :=
  fun w =>
    Returned tt
      {| localStorage := localStorage w;
         console := console w ++ [(msg, e)]; todosCell := todosCell w |}.

Definition setTodosCell (v : JValue) : M unit :=
  fun w =>
    Returned tt
      {| localStorage := localStorage w;
         console := console w; todosCell := v |}.

Definition JSON_parse_call (s : jsstring) : M JValue :=
  fun w =>
    match JSON_parse s with
    | inl v => Returned v w
    | inr e => Thrown e w
    end.

(** The first effect of [App]: load the todos when the component mounts.
    [if (savedTodos)] fails on [null] (no such key) and on the empty
    string. *)
Definition loadEffect : M unit :=
  savedTodos <- getItem (str "todos") ;;
  match savedTodos with
  | Some saved =>
      if truthy saved then
        try_catch
          (parsedTodos <- JSON_parse_call saved ;;
           setTodosCell parsedTodos)
          (fun error =>
             console_error (str "Error parsing todos from localStorage:") error ;;;
             removeItem (str "todos"))
      else ret tt
  | None => ret tt
  end.

(** The second effect of [App]: save the todos whenever they change. *)
Definition saveEffect (l : list Todo) : M unit :=
  setItem (str "todos") (JSON_stringify l).

(** The world in which the component mounts: the cell holds the initial
    state [[]] and nothing was logged. *)
Definition mount (ls : gmap (list N) (list N)) : World :=
  {| localStorage := ls; console := []; todosCell := toJS [] |}.

(** [load()]: what mounting over the storage [ls] does. *)
Definition load (ls : gmap (list N) (list N)) : Outcome unit :=
  loadEffect (mount ls).

(** [save(tasks)]: the storage after the save effect. *)
Definition save (l : list Todo) (ls : gmap (list N) (list N))
    : gmap (list N) (list N) :=
  <[str "todos" := JSON_stringify l]> ls.

(** A collection that [Todo[]] and [addTodo] can produce: every id is an
    integer that a [number] holds exactly, every string is made of 16-bit
    code units. *)
Definition well_formed_string (s : jsstring) : Prop :=
  Forall (fun c => (c < 65536)%N) s.

Definition well_formed_todo (t : Todo) : Prop :=
  - 2 ^ 53 < id t < 2 ^ 53 /\
  well_formed_string (text t) /\ well_formed_string (createdAt t).

Definition well_formed (l : list Todo) : Prop := Forall well_formed_todo l.

(** ** The key handler of the text field *)

(** [e.key === 'Enter'] and the like. *)
Definition key_is (name : string) (key : jsstring) : bool :=
  jsstring_eqb key (str name).

(** [handleKeyPress]: Enter in the text field adds the task. *)
Definition handleKeyPress (key : jsstring) (now : Z) (iso : jsstring)
    (st : AppState) : AppState :=
  if key_is "Enter" key then addTodo now iso st else st.

(** ** The task item ([TodoItem]) *)

(** The code units that [String.prototype.trim] strips: WhiteSpace (tab,
    vertical tab, form feed, the byte order mark and the space separators)
    and LineTerminator.  A platform function, after ECMA-262. *)
Definition is_js_space (c : N) : bool :=
  ((c =? 9) || (c =? 10) || (c =? 11) || (c =? 12) || (c =? 13)
   || (c =? 32) || (c =? 160) || (c =? 5760)
   || ((8192 <=? c) && (c <=? 8202))
   || (c =? 8232) || (c =? 8233) || (c =? 8239) || (c =? 8287)
   || (c =? 12288) || (c =? 65279))%N.

Fixpoint drop_space (s : jsstring) : jsstring :=
  match s with
  | [] => []
  | c :: r => if is_js_space c then drop_space r else s
  end.

(** [s.trim()]. *)
Definition trim (s : jsstring) : jsstring :=
  rev (drop_space (rev (drop_space s))).

(** The two state cells of a [TodoItem]. *)
Record ItemState := mkItem {
  isEditing : bool;
  editText : jsstring
}.

(** [useState(false)] and [useState(todo.text)]: the state of an item when
    it is mounted for [todo]. *)
Definition mountItem (todo : Todo) : ItemState :=
  {| isEditing := false; editText := text todo |}.

Definition setIsEditing (b : bool) (it : ItemState) : ItemState :=
  {| isEditing := b; editText := editText it |}.

Definition setEditText (v : jsstring) (it : ItemState) : ItemState :=
  {| isEditing := isEditing it; editText := v |}.

(** [handleEdit]: [onEdit] is the [editTodo] of the parent. *)
Definition handleEdit (todo : Todo) (ui : AppState * ItemState)
    : AppState * ItemState :=
  if truthy (trim (editText (snd ui))) then
    (editTodo (id todo) (editText (snd ui)) (fst ui),
     setIsEditing false (snd ui))
  else ui.

(** [handleCancel]. *)
Definition handleCancel (todo : Todo) (it : ItemState) : ItemState :=
  setIsEditing false (setEditText (text todo) it).

(** [handleEditKeyPress]. *)
Definition handleEditKeyPress (key : jsstring) (todo : Todo)
    (ui : AppState * ItemState) : AppState * ItemState :=
  if key_is "Enter" key then handleEdit todo ui else ui.

(** [handleEditKeyDown]. *)
Definition handleEditKeyDown (key : jsstring) (todo : Todo)
    (it : ItemState) : ItemState :=
  if key_is "Escape" key then handleCancel todo it else it.

(** [handleEditChange]. *)
Definition handleEditChange (v : jsstring) (it : ItemState) : ItemState :=
  setEditText v it.

(** [handleToggle] and [handleDelete]: [onToggle] and [onDelete] are the
    [toggleTodo] and [deleteTodo] of the parent. *)
Definition handleToggle (todo : Todo) (st : AppState) : AppState :=
  toggleTodo (id todo) st.

Definition handleDelete (todo : Todo) (st : AppState) : AppState :=
  deleteTodo (id todo) st.

(** [handleEditClick]. *)
Definition handleEditClick (it : ItemState) : ItemState :=
  setIsEditing true it.

(** *** One item on the screen

    What the user can do to the item rendered for the task at position [n].
    The item renders either its edit form (text field, Save, Cancel) or its
    view (text, pencil, trash); the checkbox is always there.  A control
    that is not rendered cannot fire. *)
Inductive ItemEvent :=
| IToggle                    (* the checkbox *)
| IEditClick                 (* the pencil *)
| IChange (v : jsstring)     (* typing in the edit field *)
| IKeyPress (key : jsstring) (* a key press in the edit field *)
| IKeyDown (key : jsstring)  (* a key down in the edit field *)
| ISave                      (* the Save button *)
| ICancel.                   (* the Cancel button *)

(** The trash is left out: it unmounts the item. *)

Definition item_step (n : nat) (ui : AppState * ItemState) (ev : ItemEvent)
    : AppState * ItemState :=
  match todos (fst ui) !! n with
  | None => ui
  | Some todo =>
      match ev with
      | IToggle => (handleToggle todo (fst ui), snd ui)
      | IEditClick =>
          if isEditing (snd ui) then ui
          else (fst ui, handleEditClick (snd ui))
      | IChange v =>
          if isEditing (snd ui) then (fst ui, handleEditChange v (snd ui))
          else ui
      | IKeyPress key =>
          if isEditing (snd ui) then handleEditKeyPress key todo ui else ui
      | IKeyDown key =>
          if isEditing (snd ui)
          then (fst ui, handleEditKeyDown key todo (snd ui))
          else ui
      | ISave => if isEditing (snd ui) then handleEdit todo ui else ui
      | ICancel =>
          if isEditing (snd ui) then (fst ui, handleCancel todo (snd ui))
          else ui
      end
  end.

Definition item_run (n : nat) (evs : list ItemEvent)
    (ui : AppState * ItemState) : AppState * ItemState :=
  fold_left (item_step n) evs ui.

(** *** The whole screen, as far as the store is concerned

    The events that reach the store.  An item event names the position of
    its item; a save carries the draft its edit field holds at that
    moment. *)
Inductive UiEvent :=
| UiInput (v : jsstring)                            (* typing in the text field *)
| UiAddClick (now : Z) (iso : jsstring)             (* the Add Task button *)
| UiKeyPress (key : jsstring) (now : Z) (iso : jsstring)
| UiToggle (n : nat)
| UiDelete (n : nat)
| UiSave (n : nat) (draft : jsstring).

Definition ui_step (st : AppState) (ev : UiEvent) : AppState :=
  match ev with
  | UiInput v => handleInputChange v st
  | UiAddClick now iso => addTodo now iso st
  | UiKeyPress key now iso => handleKeyPress key now iso st
  | UiToggle n =>
      match todos st !! n with
      | Some todo => handleToggle todo st
      | None => st
      end
  | UiDelete n =>
      match todos st !! n with
      | Some todo => handleDelete todo st
      | None => st
      end
  | UiSave n draft =>
      match todos st !! n with
      | Some todo =>
          fst (handleEdit todo (st, {| isEditing := true; editText := draft |}))
      | None => st
      end
  end.

Definition ui_run (evs : list UiEvent) (st : AppState) : AppState :=
  fold_left ui_step evs st.

(** ** Mounting the component *)

(** Reading a runtime value back at the type [Todo[]].  Only the values
    [toJS] produces are read back: for any other value the cast of
    [loadEffect] is wrong and the next render is outside the model. *)
Definition todo_fromJS (v : JValue) : option Todo :=
  match v with
  | JObj [(k1, JNum m 0); (k2, JStr s); (k3, JBool b); (k4, JStr c)] =>
      if jsstring_eqb k1 (str "id") && jsstring_eqb k2 (str "text")
         && jsstring_eqb k3 (str "completed")
         && jsstring_eqb k4 (str "createdAt")
      then Some (mkTodo m s b c) else None
  | _ => None
  end.

Fixpoint todos_fromJS (vs : list JValue) : option (list Todo) :=
  match vs with
  | [] => Some []
  | v :: r =>
      match todo_fromJS v, todos_fromJS r with
      | Some t, Some l => Some (t :: l)
      | _, _ => None
      end
  end.

Definition fromJS (v : JValue) : option (list Todo) :=
  match v with
  | JArr vs => todos_fromJS vs
  | _ => None
  end.

Definition getTodosCell : M JValue :=
  fun w => Returned (todosCell w) w.

(** What mounting [App] once does.  The first render has [todos = []]; its
    two effects run in the order they are declared, so the save effect
    writes the empty collection after the load effect has read the slot.
    [setTodos] of the load effect causes a second render, whose save
    effect writes the loaded collection (when [setTodos] was not called
    there is no second render; saving [[]] once more changes nothing).  The
    result is the collection of the last render.  The result [None] marks
    the end of the model, not a normal end: the state is then not a
    [Todo[]] value, and the second render (a [TypeError] at [todos.filter],
    or a save of the value as it is) is not described; the world given is
    the one after the effects of the first render. *)
Definition mountEffects : M (option (list Todo)) :=
  loadEffect ;;;
  saveEffect [] ;;;
  (cell <- getTodosCell ;;
   match fromJS cell with
   | Some l => saveEffect l ;;; ret (Some l)
   | None => ret None
   end).

Definition mountApp (ls : gmap (list N) (list N))
    : Outcome (option (list Todo)) :=
  mountEffects (mount ls).

(** ** A session

    Every operation is followed by the save effect (the collection changed,
    or it did not and the same text is written again). *)
Definition session_step (ws : AppState * gmap (list N) (list N)) (o : Op)
    : AppState * gmap (list N) (list N) :=
  (step (fst ws) o, save (todos (step (fst ws) o)) (snd ws)).

Definition session (ops : list Op)
    (ws : AppState * gmap (list N) (list N))
    : AppState * gmap (list N) (list N) :=
  fold_left session_step ops ws.

(** The inputs of an operation that the interface can supply: a client
    clock reading that a [number] holds exactly, and strings of 16-bit code
    units. *)
Definition well_formed_op (o : Op) : Prop :=
  match o with
  | OpAdd newText now iso =>
      well_formed_string newText /\ - 2 ^ 53 < now < 2 ^ 53 /\
      well_formed_string iso
  | OpEdit _ newText => well_formed_string newText
  | OpToggle _ | OpDelete _ => True
  end.

(** ** Example data *)

(** A creation stamp as [toISOString] writes it. *)
Definition stamp : jsstring := str "2023-11-14T22:13:20.000Z".

(** Two adds within one clock tick. *)
Definition colliding_ops : list Op :=
  [ OpAdd (str "Buy milk") 1700000000000 stamp;
    OpAdd (str "Walk the dog") 1700000000000 stamp ].

(** Two adds in different ticks. *)
Definition distinct_ops : list Op :=
  [ OpAdd (str "Buy milk") 1700000000000 stamp;
    OpAdd (str "Walk the dog") 1700000000001 stamp ].

(** A collection whose second text holds a quote, a tab, a surrogate pair
    and a lone surrogate. *)
Definition sample_todos : list Todo :=
  [ mkTodo 1700000000000 (str "Buy milk") true stamp;
    mkTodo 1700000000001 [34%N; 9%N; 55357%N; 56832%N; 55357%N] false stamp ].

(** Storage whose slot holds the empty string. *)
Definition empty_slot : gmap (list N) (list N) := {[ str "todos" := [] ]}.

(** Storage whose slot holds text that is not JSON. *)
Definition corrupted_slot : gmap (list N) (list N) :=
  {[ str "todos" := str "{bad" ]}.

(** The store after two adds in different ticks. *)
Definition shop_state : AppState := run distinct_ops initialState.

(** An item session: a blank save is refused, then a draft is saved with
    Enter, then the checkbox is ticked. *)
Definition edit_events : list ItemEvent :=
  [ IEditClick; IChange (str "  "); ISave; IChange (str " Buy oat milk");
    IKeyPress (str "Enter"); IToggle ].

(** A screen session: adds by key and by button, a refused add, a refused
    and an accepted edit, a toggle, an add of a blank text, a delete. *)
Definition screen_events : list UiEvent :=
  [ UiInput (str "Buy milk"); UiKeyPress (str "Enter") 1700000000000 stamp;
    UiInput []; UiAddClick 1700000000001 stamp;
    UiSave 0 (str "   "); UiSave 0 (str "Buy oat milk"); UiToggle 0;
    UiInput (str " "); UiAddClick 1700000000002 stamp; UiDelete 1 ].

(** ** Predicates used in the proofs *)

(** Digits as [Number::toString] writes them: at least one, and a leading
    zero only when it is the whole number. *)
Definition normal_digits (u : Decimal.uint) : Prop :=
  match u with
  | Decimal.Nil => False
  | Decimal.D0 u' => u' = Decimal.Nil
  | _ => True
  end.

(** The characters that can follow a value inside an array or an object. *)
Definition closes (d : N) : Prop := d = 44%N \/ d = 93%N \/ d = 125%N.

(** [prints n s v]: inside an array or an object, a budget of [n] reads the
    text [s] back as the value [v] and stops in front of what follows. *)
Definition prints (n : nat) (s : jsstring) (v : JValue) : Prop :=
  forall (fuel : nat) (d : N) (rest : jsstring),
    (n <= fuel)%nat -> closes d ->
    parse_value fuel (s ++ d :: rest) = POk v (d :: rest).

(** The members of an object, each with the value its text stands for. *)
Definition member_text (m : jsstring * jsstring * JValue) : jsstring :=
  member (fst (fst m)) (snd (fst m)).

Definition define_member (acc : list (jsstring * JValue))
    (m : jsstring * jsstring * JValue) : list (jsstring * JValue) :=
  obj_set (fst (fst m)) (snd m) acc.

(** The members of a [Todo], each with its text and its value. *)
Definition todo_members (t : Todo) : list (jsstring * jsstring * JValue) :=
  [ (str "id", number_toString (id t), JNum (id t) 0);
    (str "text", QuoteJSONString (text t), JStr (text t));
    (str "completed", boolean_toString (completed t), JBool (completed t));
    (str "createdAt", QuoteJSONString (createdAt t), JStr (createdAt t)) ].

(** What an item keeps through its own events: it stays mounted for a task
    with the id it was mounted for, and while its edit form is closed its
    draft is the text of that task. *)
Definition item_inv (n : nat) (todo : Todo) (ui : AppState * ItemState)
    : Prop :=
  exists todo',
    todos (fst ui) !! n = Some todo' /\ id todo' = id todo /\
    (isEditing (snd ui) = false -> editText (snd ui) = text todo').

(** Every task has a non-empty text. *)
Definition nonempty_texts (l : list Todo) : Prop :=
  Forall (fun t => text t <> []) l.

(** ** Facts about [map] and [filter] with boolean callbacks *)

Section ListFacts.

Context {A B : Type}.
Implicit Types (p : A -> bool) (xs : list A).

Lemma map_lookup (f : A -> B) xs (n : nat) :
  List.map f xs !! n = f <$> (xs !! n).
Proof.
  revert n. induction xs as [|x xs IH]; intros [|n]; simpl; auto.
Qed.

Lemma map_if_none p (f : A -> A) xs :
  Forall (fun x => p x = false) xs ->
  List.map (fun x => if p x then f x else x) xs = xs.
Proof.
  induction 1 as [|x xs Hx _ IH]; simpl; [done|]. by rewrite Hx, IH.
Qed.

Lemma filter_all p xs :
  Forall (fun x => p x = true) xs -> List.filter p xs = xs.
Proof.
  induction 1 as [|x xs Hx _ IH]; simpl; [done|]. by rewrite Hx, IH.
Qed.

Lemma filter_none_forall p xs :
  length (List.filter p xs) = 0%nat <-> Forall (fun x => p x = false) xs.
Proof.
  induction xs as [|x xs IH]; simpl; [by split|].
  destruct (p x) eqn:E; simpl.
  - split; [discriminate|]. intros H. inversion H; subst. congruence.
  - rewrite IH. split; [by constructor|]. intros H. by inversion H.
Qed.

Lemma filter_length_split p xs :
  (length (List.filter p xs) + length (List.filter (fun x => negb (p x)) xs)
   = length xs)%nat.
Proof.
  induction xs as [|x xs IH]; simpl; [done|]. destruct (p x); simpl; lia.
Qed.

Lemma filter_twice p xs :
  List.filter p (List.filter p xs) = List.filter p xs.
Proof.
  induction xs as [|x xs IH]; simpl; [done|].
  destruct (p x) eqn:E; simpl; [by rewrite E, IH | done].
Qed.

Lemma filter_sublist p xs : List.filter p xs `sublist_of` xs.
Proof.
  induction xs as [|x xs IH]; simpl; [constructor|].
  destruct (p x); by constructor.
Qed.

Lemma filter_negb_none p xs :
  length (List.filter p (List.filter (fun x => negb (p x)) xs)) = 0%nat.
Proof.
  induction xs as [|x xs IH]; simpl; [done|].
  destruct (p x) eqn:E; simpl; [done|]. by rewrite E.
Qed.

(** A list in which exactly one element satisfies [p] splits around it. *)
Lemma filter_one_split p xs :
  length (List.filter p xs) = 1%nat ->
  exists xs1 x xs2,
    xs = xs1 ++ x :: xs2 /\ p x = true /\
    List.filter (fun y => negb (p y)) xs = xs1 ++ xs2.
Proof.
  induction xs as [|y xs IH]; simpl; [discriminate|].
  destruct (p y) eqn:E; simpl.
  - intros H. exists [], y, xs. repeat split; auto. simpl.
    apply filter_all. injection H as H.
    apply filter_none_forall in H.
    eapply Forall_impl; [exact H|]. intros x Hx. simpl in Hx. by rewrite Hx.
  - intros H. destruct (IH H) as (xs1 & x & xs2 & -> & Hx & Hf).
    exists (y :: xs1), x, xs2. repeat split; auto. simpl. by rewrite Hf.
Qed.

End ListFacts.

(** ** Properties of the task store *)

Section StoreLemmas.

Implicit Types (st : AppState) (l : list Todo) (i : Z) (t : Todo).

Lemma setTodos_same st : setTodos (todos st) st = st.
Proof. by destruct st. Qed.

Lemma flip_completed_twice t : flip_completed (flip_completed t) = t.
Proof.
  destruct t as [a b c d]. unfold flip_completed. simpl.
  by rewrite negb_involutive.
Qed.

Lemma no_match_eqb i l :
  count_id i l = 0%nat <-> Forall (fun t => (id t =? i) = false) l.
Proof. apply filter_none_forall. Qed.

Lemma count_id_0_forall i l :
  count_id i l = 0%nat <-> Forall (fun t => id t <> i) l.
Proof.
  rewrite no_match_eqb. apply Forall_proper; [|done].
  intros t. apply Z.eqb_neq.
Qed.

End StoreLemmas.

(** ** Reading back what [JSON.stringify] wrote *)

(** Case analysis on every comparison of the code unit [c] with a constant
    in the goal; [tac] closes the case in which they are equal. *)
Tactic Notation "case_code" constr(c) "by" tactic3(tac) :=
  repeat match goal with
  | |- context [(c =? ?k)%N] =>
      destruct (N.eqb_spec c k) as [->|?]; [tac|]
  end.

Section JsonLemmas.

Lemma hexval_hexdigit (n : N) : (n < 16)%N -> hexval (hexdigit n) = Some n.
Proof.
  intros H.
  assert (E : List.In n (List.map N.of_nat (seq 0 16))).
  { apply in_map_iff. exists (N.to_nat n). split; [lia|]. apply in_seq. lia. }
  simpl in E. intuition (subst; reflexivity).
Qed.

Lemma hex4_unicode_escape (c : N) :
  (c < 65536)%N ->
  hex4 (hexdigit ((c / 4096) mod 16)) (hexdigit ((c / 256) mod 16))
       (hexdigit ((c / 16) mod 16)) (hexdigit (c mod 16)) = Some c.
Proof.
  intros H. unfold hex4.
  rewrite !hexval_hexdigit by (apply N.mod_lt; lia).
  f_equal.
  pose proof (N.div_mod c 16 ltac:(lia)).
  pose proof (N.div_mod (c / 16) 16 ltac:(lia)).
  pose proof (N.div_mod (c / 16 / 16) 16 ltac:(lia)).
  rewrite !N.Div0.div_div in *. change (16 * 16)%N with 256%N in *.
  change (256 * 16)%N with 4096%N in *.
  assert (c / 4096 < 16)%N by (apply N.Div0.div_lt_upper_bound; lia).
  rewrite (N.mod_small (c / 4096) 16) by lia.
  pose proof (N.mod_lt c 16 ltac:(lia)).
  pose proof (N.mod_lt (c / 16) 16 ltac:(lia)).
  pose proof (N.mod_lt (c / 256) 16 ltac:(lia)).
  lia.
Qed.

Lemma parse_string_body_unit (c : N) (rest : jsstring) :
  parse_string_body (quote_unit c ++ rest)
    = pmap (cons c) (parse_string_body rest).
Proof.
  unfold quote_unit. case_code c by reflexivity.
  destruct ((c <? 32)%N || is_leading_surrogate c || is_trailing_surrogate c)
    eqn:E.
  - assert (Hc : (c < 65536)%N).
    { unfold is_leading_surrogate, is_trailing_surrogate in E.
      destruct (N.ltb_spec c 32); [lia|].
      destruct (N.leb_spec c 56319); [lia|].
      destruct (N.leb_spec c 57343); [lia|].
      rewrite !andb_false_r in E. discriminate. }
    unfold unicode_escape. cbn [app parse_string_body].
    change (ch "\" =? 34)%N with false. change (ch "\" =? 92)%N with true.
    change (ch "u" =? 117)%N with true. cbv iota.
    by rewrite hex4_unicode_escape.
  - apply orb_false_iff in E as [E _]. apply orb_false_iff in E as [E _].
    cbn [app parse_string_body].
    destruct (N.eqb_spec c 34); [done|]. destruct (N.eqb_spec c 92); [done|].
    by rewrite E.
Qed.

Lemma surrogate_is_literal (c : N) :
  is_leading_surrogate c || is_trailing_surrogate c = true ->
  (c =? 34)%N = false /\ (c =? 92)%N = false /\ (c <? 32)%N = false.
Proof.
  unfold is_leading_surrogate, is_trailing_surrogate. intros H.
  assert (55296 <= c)%N.
  { destruct (N.leb_spec 55296 c); [done|].
    destruct (N.leb_spec 56320 c); [lia|]. discriminate. }
  repeat split; [apply N.eqb_neq | apply N.eqb_neq | apply N.ltb_ge]; lia.
Qed.

(** Reading back what [QuoteJSONString] wrote gives the string. *)
Lemma parse_string_body_quote (s rest : jsstring) :
  parse_string_body (quote_body s ++ 34%N :: rest) = POk s rest.
Proof.
  remember (length s) as n eqn:Hn. revert s Hn rest.
  induction n as [n IH] using lt_wf_ind. intros s Hn rest.
  destruct s as [|c [|d r]].
  - reflexivity.
  - cbn [quote_body]. rewrite parse_string_body_unit. reflexivity.
  - cbn [quote_body].
    destruct (is_leading_surrogate c && is_trailing_surrogate d) eqn:E.
    + apply andb_true_iff in E as [Ec Ed].
      destruct (surrogate_is_literal c) as (c1 & c2 & c3); [by rewrite Ec|].
      destruct (surrogate_is_literal d) as (d1 & d2 & d3).
      { rewrite Ed. apply orb_true_r. }
      cbn [app parse_string_body]. rewrite c1, c2, c3, d1, d2, d3.
      assert (Hlt : (length r < n)%nat) by (simpl in Hn; lia).
      by rewrite (IH _ Hlt r eq_refl).
    + rewrite <- app_assoc, parse_string_body_unit.
      assert (Hlt : (length (d :: r) < n)%nat) by (simpl in Hn |- *; lia).
      by rewrite (IH _ Hlt (d :: r) eq_refl).
Qed.

Lemma take_digits_uint_chars (u : Decimal.uint) (rest : jsstring) :
  match rest with c :: _ => digit_of c = None | [] => True end ->
  take_digits (uint_chars u ++ rest) = (u, rest).
Proof.
  intros H. induction u as [|u IH|u IH|u IH|u IH|u IH|u IH|u IH|u IH|u IH|u IH];
    cbn [uint_chars app take_digits]; try (by rewrite IH).
  destruct rest as [|c r]; [done|]. cbn [take_digits]. by rewrite H.
Qed.

Lemma unorm_fixed_normal (u : Decimal.uint) :
  Decimal.unorm u = u -> normal_digits u.
Proof.
  destruct u; simpl; auto.
  - discriminate.
  - change (Decimal.unorm (Decimal.D0 u) = Decimal.D0 u -> u = Decimal.Nil).
    rewrite DecimalFacts.unorm_D0. unfold Decimal.unorm.
    destruct (Decimal.nzhead u) eqn:E; try discriminate.
    + by intros [= <-].
    + intros [= ->]. by apply DecimalFacts.nzhead_nonzero in E.
Qed.

Lemma pos_to_uint_normal (p : positive) : normal_digits (Pos.to_uint p).
Proof.
  apply unorm_fixed_normal.
  rewrite <- (DecimalPos.Unsigned.to_of (Pos.to_uint p)).
  by rewrite DecimalPos.Unsigned.of_to.
Qed.

Lemma uint_chars_head (u : Decimal.uint) :
  u <> Decimal.Nil ->
  exists c r, uint_chars u = c :: r /\ (48 <= c <= 57)%N.
Proof.
  destruct u; [done|..]; intros _; eexists _, _; (split; [reflexivity|]);
    cbv; split; discriminate.
Qed.

Lemma parse_int_part_chars (u : Decimal.uint) (rest : jsstring) :
  normal_digits u ->
  match rest with c :: _ => digit_of c = None | [] => True end ->
  parse_int_part (uint_chars u ++ rest) = Some (u, rest).
Proof.
  intros Hu Hrest.
  destruct u; simpl in Hu; try done; subst;
    try (unfold parse_int_part; rewrite take_digits_uint_chars by done;
         reflexivity).
Qed.

Lemma normalize_integer (m : Z) : normalize m 0 = (m, 0).
Proof.
  unfold normalize. destruct (Z.eqb_spec m 0) as [->|]; [done|].
  simpl. by rewrite Z.mul_1_r.
Qed.

Lemma parse_number_digits (neg : bool) (u : Decimal.uint) (d : N)
    (rest : jsstring) :
  normal_digits u -> closes d ->
  parse_number ((if neg then [45%N] else []) ++ uint_chars u ++ d :: rest)
    = POk (JNum (if neg then - Z.of_uint u else Z.of_uint u) 0) (d :: rest).
Proof.
  intros Hu Hd.
  assert (Hdig : digit_of d = None) by (by destruct Hd as [->|[->| ->]]).
  assert (Hint : parse_int_part (uint_chars u ++ d :: rest)
                 = Some (u, d :: rest)) by (by apply parse_int_part_chars).
  assert (Htail : parse_frac_part (d :: rest) = Some (Decimal.Nil, d :: rest)
                  /\ parse_exp_part (d :: rest) = Some (0, d :: rest)).
  { by destruct Hd as [->|[->| ->]]. }
  destruct Htail as [Hf He].
  assert (Hval : number_value neg u Decimal.Nil 0
                 = JNum (if neg then - Z.of_uint u else Z.of_uint u) 0).
  { unfold number_value. rewrite DecimalFacts.app_nil_r. simpl.
    by rewrite normalize_integer. }
  unfold parse_number. destruct neg; simpl app.
  - cbv iota beta. rewrite N.eqb_refl. cbv iota beta.
    by rewrite Hint, Hf, He, Hval.
  - destruct (uint_chars_head u) as (c & r & E & Hc).
    { by destruct u. }
    rewrite E in *. simpl app in *.
    cbv iota beta. destruct (N.eqb_spec c 45); [lia|]. cbv iota beta.
    by rewrite Hint, Hf, He, Hval.
Qed.

Lemma number_toString_digits (z : Z) :
  exists (neg : bool) (u : Decimal.uint),
    normal_digits u /\
    number_toString z = (if neg then [45%N] else []) ++ uint_chars u /\
    z = (if neg then - Z.of_uint u else Z.of_uint u).
Proof.
  pose proof (DecimalZ.of_to z) as Hz. unfold number_toString.
  destruct z as [|p|p]; simpl in *.
  - exists false, (Decimal.D0 Decimal.Nil). by repeat split.
  - exists false, (Pos.to_uint p). repeat split; [apply pos_to_uint_normal|done].
  - exists true, (Pos.to_uint p). repeat split; [apply pos_to_uint_normal|done].
Qed.

(** Reading back what [Number::toString] wrote gives the integer. *)
Lemma parse_number_toString (z : Z) (d : N) (rest : jsstring) :
  closes d ->
  parse_number (number_toString z ++ d :: rest) = POk (JNum z 0) (d :: rest).
Proof.
  intros Hd. destruct (number_toString_digits z) as (neg & u & Hu & -> & Hz).
  rewrite <- app_assoc, parse_number_digits by done. by rewrite <- Hz.
Qed.

Lemma skip_ws_closes (d : N) (rest : jsstring) :
  closes d -> skip_ws (d :: rest) = d :: rest.
Proof. by intros [->|[->| ->]]. Qed.

Lemma parse_value_number_start (fuel : nat) (c : N) (r : jsstring) :
  c = 45%N \/ (48 <= c <= 57)%N ->
  parse_value (S fuel) (c :: r) = parse_number (c :: r).
Proof.
  intros Hc.
  assert (Hws : is_ws c = false).
  { unfold is_ws. case_code c by lia. reflexivity. }
  cbn [parse_value skip_ws]. rewrite Hws. case_code c by lia. reflexivity.
Qed.

Lemma number_toString_head (z : Z) :
  exists c r, number_toString z = c :: r /\ (c = 45%N \/ (48 <= c <= 57)%N).
Proof.
  destruct (number_toString_digits z) as ([|] & u & Hu & -> & _).
  - eexists _, _. split; [reflexivity|]. by left.
  - destruct (uint_chars_head u) as (c & r & E & Hc); [by destruct u|].
    exists c, r. split; [done|]. by right.
Qed.

Lemma prints_number (z : Z) : prints 1 (number_toString z) (JNum z 0).
Proof.
  intros [|fuel] d rest Hf Hd; [lia|].
  destruct (number_toString_head z) as (c & r & E & Hc).
  rewrite <- (parse_number_toString z d rest Hd), E.
  by apply parse_value_number_start.
Qed.

Lemma prints_string (s : jsstring) : prints 1 (QuoteJSONString s) (JStr s).
Proof.
  intros [|fuel] d rest Hf Hd; [lia|]. unfold QuoteJSONString.
  cbn [app]. rewrite <- app_assoc. cbn [parse_value skip_ws app].
  change (is_ws 34) with false. cbv iota.
  change (34 =? 123)%N with false. change (34 =? 91)%N with false.
  change (34 =? 34)%N with true. cbv iota.
  by rewrite parse_string_body_quote.
Qed.

Lemma prints_boolean (b : bool) : prints 1 (boolean_toString b) (JBool b).
Proof.
  intros [|fuel] d rest Hf Hd; [lia|]. by destruct b.
Qed.

Lemma parse_members_step (fuel : nat) (k s : jsstring) (v : JValue)
    (d : N) (rest : jsstring) (acc : list (jsstring * JValue)) :
  parse_value fuel (s ++ d :: rest) = POk v (d :: rest) ->
  closes d ->
  parse_members (S fuel) (member k s ++ d :: rest) acc
    = if (d =? 44)%N then parse_members fuel rest (obj_set k v acc)
      else if (d =? 125)%N then POk (JObj (obj_set k v acc)) rest
      else PErr.
Proof.
  intros Hv Hd. unfold member, QuoteJSONString.
  cbn [app]. rewrite <- !app_assoc. cbn [parse_members skip_ws app].
  change (is_ws 34) with false. cbv iota.
  change (34 =? 34)%N with true. cbv iota.
  rewrite parse_string_body_quote. cbn [skip_ws].
  change (is_ws (ch ":")) with false. cbv iota.
  change (ch ":" =? 58)%N with true. cbv iota.
  rewrite Hv. by rewrite skip_ws_closes.
Qed.

Lemma parse_members_join (n : nat)
    (ms : list (jsstring * jsstring * JValue)) :
  ms <> [] ->
  Forall (fun m => prints n (snd (fst m)) (snd m)) ms ->
  forall (fuel : nat) (acc : list (jsstring * JValue)) (rest : jsstring),
    (n + length ms <= fuel)%nat ->
    parse_members fuel (join_comma (List.map member_text ms) ++ 125%N :: rest)
      acc
    = POk (JObj (fold_left define_member ms acc)) rest.
Proof.
  induction ms as [|m ms IH]; [done|]. intros _ Hall fuel acc rest Hfuel.
  inversion Hall as [|? ? Hm Hms]; subst.
  destruct fuel as [|fuel]; [simpl in Hfuel; lia|].
  simpl in Hfuel. cbn [List.map join_comma fold_left].
  destruct ms as [|m' ms].
  - cbn [List.map]. unfold member_text at 1.
    rewrite (parse_members_step _ _ _ (snd m)).
    + reflexivity.
    + apply Hm; [lia | right; by right].
    + right; by right.
  - cbn [List.map]. rewrite <- app_assoc. cbn [app]. unfold member_text at 1.
    rewrite (parse_members_step _ _ _ (snd m)).
    + change (ch "," =? 44)%N with true. cbv iota.
      apply IH; [done | done | simpl in *; lia].
    + apply Hm; [lia | by left].
    + by left.
Qed.

Lemma prints_object (n : nat) (ms : list (jsstring * jsstring * JValue)) :
  ms <> [] ->
  Forall (fun m => prints n (snd (fst m)) (snd m)) ms ->
  prints (S (n + length ms))
    (stringify_object (List.map fst ms))
    (JObj (fold_left define_member ms [])).
Proof.
  intros Hne Hall [|fuel] d rest Hf Hd; [lia|].
  unfold stringify_object. rewrite List.map_map.
  cbn [app]. rewrite <- app_assoc. cbn [app parse_value skip_ws].
  change (is_ws (ch "{")) with false. cbv iota.
  change (ch "{" =? 123)%N with true. cbv iota.
  change (List.map (fun x => member (fst (fst x)) (snd (fst x))) ms)
    with (List.map member_text ms).
  rewrite <- (parse_members_join n ms Hne Hall fuel [] (d :: rest))
    by lia.
  destruct ms as [|m ms]; [done|].
  cbn [List.map join_comma]. unfold member_text at 1 3, member, QuoteJSONString.
  by destruct ms.
Qed.

Lemma parse_elements_join (n : nat) (vs : list (jsstring * JValue)) :
  vs <> [] ->
  Forall (fun sv => prints n (fst sv) (snd sv)) vs ->
  forall (fuel : nat) (rest : jsstring),
    (n + length vs <= fuel)%nat ->
    parse_elements fuel (join_comma (List.map fst vs) ++ 93%N :: rest)
    = POk (List.map snd vs) rest.
Proof.
  induction vs as [|sv vs IH]; [done|]. intros _ Hall fuel rest Hfuel.
  inversion Hall as [|? ? Hsv Hvs]; subst.
  destruct fuel as [|fuel]; [simpl in Hfuel; lia|].
  simpl in Hfuel. cbn [List.map join_comma].
  destruct vs as [|sv' vs].
  - cbn [parse_elements]. rewrite Hsv; [|lia|right; by left]. reflexivity.
  - cbn [List.map join_comma]. rewrite <- app_assoc.
    cbn [app parse_elements].
    rewrite Hsv; [|lia|by left]. cbn [skip_ws].
    change (is_ws (ch ",")) with false. cbv iota.
    change (ch "," =? 44)%N with true. cbv iota.
    rewrite IH; [done | done | done | simpl in *; lia].
Qed.

Lemma prints_todo (t : Todo) : prints 6 (stringify_todo t) (todo_toJS t).
Proof.
  apply (prints_object 1 (todo_members t)); [done|].
  repeat constructor; simpl.
  - apply prints_number.
  - apply prints_string.
  - apply prints_boolean.
  - apply prints_string.
Qed.

Lemma join_comma_length (parts : list jsstring) :
  Forall (fun p => (2 <= length p)%nat) parts ->
  (2 * length parts <= length (join_comma parts))%nat.
Proof.
  induction 1 as [|p parts Hp Hall IH]; [done|].
  cbn [join_comma]. destruct parts as [|q parts]; [simpl; lia|].
  rewrite length_app. simpl in *. lia.
Qed.

Lemma parse_value_array (fuel : nat) (r tail : jsstring) :
  r = 123%N :: tail ->
  parse_value (S fuel) (91%N :: r) = pmap JArr (parse_elements fuel r).
Proof. by intros ->. Qed.

(** [JSON.parse] reads back what [JSON.stringify] wrote for a [Todo[]]. *)
Lemma JSON_parse_stringify (l : list Todo) :
  JSON_parse (JSON_stringify l) = inl (toJS l).
Proof.
  destruct l as [|t l]; [reflexivity|].
  unfold JSON_parse, JSON_stringify, stringify_array.
  set (vs := List.map (fun x => (stringify_todo x, todo_toJS x)) (t :: l)).
  assert (Efst : List.map stringify_todo (t :: l) = List.map fst vs).
  { unfold vs. rewrite List.map_map. by apply List.map_ext. }
  assert (Esnd : List.map todo_toJS (t :: l) = List.map snd vs).
  { unfold vs. rewrite List.map_map. by apply List.map_ext. }
  assert (Hlen : (2 * length (t :: l)
                  <= length (join_comma (List.map stringify_todo (t :: l))))%nat).
  { rewrite <- (length_map stringify_todo). apply join_comma_length.
    apply Forall_forall. intros p Hp. apply list_elem_of_In in Hp.
    apply in_map_iff in Hp as (x & <- & _).
    unfold stringify_todo, stringify_object. simpl. lia. }
  change (ch "[") with 91%N.
  assert (Hhead : exists tail,
             join_comma (List.map stringify_todo (t :: l)) ++ [ch "]"]
             = 123%N :: tail).
  { cbn [List.map join_comma]. destruct l; eexists; reflexivity. }
  destruct Hhead as [tail Hhead].
  rewrite (parse_value_array _ _ tail Hhead).
  change [ch "]"] with (93%N :: []). rewrite Efst.
  rewrite (parse_elements_join 6 vs).
  - cbn. unfold toJS. by rewrite Esnd.
  - done.
  - unfold vs. apply Forall_forall. intros sv Hsv.
    apply list_elem_of_In in Hsv. apply in_map_iff in Hsv as (x & <- & _).
    apply prints_todo.
  - rewrite <- Efst.
    assert (length vs = length (t :: l)) by (unfold vs; by rewrite length_map).
    clear Hhead. set (j := join_comma _) in *.
    cbn [length]. rewrite length_app. cbn [length] in *. lia.
Qed.

(** *** The recursion budget of [JSON_parse] is never exhausted *)

Lemma skip_ws_length (s : jsstring) : (length (skip_ws s) <= length s)%nat.
Proof.
  induction s as [|c s IH]; simpl; [done|]. destruct (is_ws c); simpl; lia.
Qed.

Lemma pmap_ok {A B} (f : A -> B) (p : presult A) (b : B) (r : jsstring) :
  pmap f p = POk b r -> exists a, p = POk a r /\ b = f a.
Proof. destruct p; simpl; [|done..]. intros [= <- <-]. eauto. Qed.

Lemma pmap_fuel {A B} (f : A -> B) (p : presult A) :
  pmap f p = PFuel -> p = PFuel.
Proof. by destruct p. Qed.

Lemma parse_string_body_consumes (s : jsstring) :
  parse_string_body s <> PFuel /\
  forall a r, parse_string_body s = POk a r -> (length r < length s)%nat.
Proof.
  remember (length s) as n eqn:Hn. revert s Hn.
  induction n as [n IH] using lt_wf_ind. intros s ->.
  assert (IH' : forall s', (length s' < length s)%nat ->
            parse_string_body s' <> PFuel /\
            forall a r, parse_string_body s' = POk a r ->
                        (length r < length s')%nat).
  { intros s' Hs'. by apply (IH (length s')). }
  clear IH. destruct s as [|c r0]; [done|]. cbn [parse_string_body].
  destruct (c =? 34)%N.
  { split; [done|]. intros a r [= <- <-]. simpl; lia. }
  destruct (c =? 92)%N.
  - destruct r0 as [|e r1]; [done|]. destruct (e =? 117)%N.
    + destruct r1 as [|h1 [|h2 [|h3 [|h4 r2]]]]; try done.
      destruct (hex4 h1 h2 h3 h4); [|done].
      destruct (IH' r2) as [Hf Hok]; [simpl; lia|]. split.
      * intros E. by apply pmap_fuel in E.
      * intros a r E. apply pmap_ok in E as (a' & E & _).
        apply Hok in E. simpl; lia.
    + destruct (simple_escape e); [|done].
      destruct (IH' r1) as [Hf Hok]; [simpl; lia|]. split.
      * intros E. by apply pmap_fuel in E.
      * intros a r E. apply pmap_ok in E as (a' & E & _).
        apply Hok in E. simpl; lia.
  - destruct (c <? 32)%N; [done|].
    destruct (IH' r0) as [Hf Hok]; [simpl; lia|]. split.
    + intros E. by apply pmap_fuel in E.
    + intros a r E. apply pmap_ok in E as (a' & E & _).
      apply Hok in E. simpl; lia.
Qed.

Lemma take_digits_length (s : jsstring) :
  (length (snd (take_digits s)) <= length s)%nat /\
  (fst (take_digits s) <> Decimal.Nil ->
   length (snd (take_digits s)) < length s)%nat.
Proof.
  induction s as [|c s [IH1 IH2]]; simpl; [done|].
  destruct (digit_of c) as [dg|]; simpl.
  - destruct (take_digits s) as [u r]. simpl in *. split; intros; lia.
  - split; [lia|done].
Qed.

Lemma parse_int_part_consumes (s r : jsstring) (i : Decimal.uint) :
  parse_int_part s = Some (i, r) -> (length r < length s)%nat.
Proof.
  destruct s as [|c s0]; [done|]. unfold parse_int_part.
  destruct (c =? 48)%N; [intros [= <- <-]; simpl; lia|].
  pose proof (take_digits_length (c :: s0)) as [_ H].
  destruct (take_digits (c :: s0)) as [[] r']; [done|..];
    intros [= <- <-]; by apply H.
Qed.

Lemma parse_frac_part_consumes (s r : jsstring) (f : Decimal.uint) :
  parse_frac_part s = Some (f, r) -> (length r <= length s)%nat.
Proof.
  destruct s as [|c s0]; [by intros [= <- <-]|]. unfold parse_frac_part.
  destruct (c =? 46)%N; [|by intros [= <- <-]].
  pose proof (take_digits_length s0) as [H _].
  destruct (take_digits s0) as [[] r']; [done|..];
    intros [= <- <-]; simpl in *; lia.
Qed.

Lemma parse_exp_part_consumes (s r : jsstring) (x : Z) :
  parse_exp_part s = Some (x, r) -> (length r <= length s)%nat.
Proof.
  destruct s as [|c s0]; [by intros [= <- <-]|]. unfold parse_exp_part.
  destruct ((c =? 101)%N || (c =? 69)%N); [|by intros [= <- <-]].
  assert (Hr1 : forall neg r1,
             (length r1 <= length s0)%nat ->
             match take_digits r1 with
             | (Decimal.Nil, _) => None
             | (x0, r2) =>
                 Some (if neg : bool then - Z.of_uint x0 else Z.of_uint x0, r2)
             end = Some (x, r) -> (length r <= length (c :: s0))%nat).
  { intros neg r1 Hl. pose proof (take_digits_length r1) as [H _].
    destruct (take_digits r1) as [[] r']; [done|..];
      intros [= <- <-]; simpl in *; lia. }
  destruct s0 as [|d r']; [apply (Hr1 false); simpl; lia|].
  destruct (d =? 43)%N; [apply (Hr1 false); simpl; lia|].
  destruct (d =? 45)%N; [apply (Hr1 true) | apply (Hr1 false)]; simpl; lia.
Qed.

Lemma parse_number_consumes (s : jsstring) :
  parse_number s <> PFuel /\
  forall v r, parse_number s = POk v r -> (length r < length s)%nat.
Proof.
  unfold parse_number.
  set (p := match s with
            | [] => (false, [])
            | c :: r => if (c =? 45)%N then (true, r) else (false, s)
            end).
  assert (Hp : (length (snd p) <= length s)%nat).
  { unfold p. destruct s as [|c r]; [done|]. destruct (c =? 45)%N; simpl; lia. }
  destruct p as [neg s1]. simpl in Hp.
  destruct (parse_int_part s1) as [[i s2]|] eqn:Ei; [|done].
  destruct (parse_frac_part s2) as [[f s3]|] eqn:Ef; [|done].
  destruct (parse_exp_part s3) as [[x s4]|] eqn:Ex; [|done].
  split; [done|]. intros v r [= <- <-].
  apply parse_int_part_consumes in Ei. apply parse_frac_part_consumes in Ef.
  apply parse_exp_part_consumes in Ex. lia.
Qed.

Lemma expect_consumes (lit s r : jsstring) :
  expect lit s = Some r -> (length r <= length s)%nat.
Proof.
  revert s. induction lit as [|c lit IH]; intros s; simpl.
  - by intros [= <-].
  - destruct s as [|d s0]; [done|]. destruct (c =? d)%N; [|done].
    intros E. apply IH in E. simpl; lia.
Qed.

Lemma parse_keyword_consumes (lit : jsstring) (v0 : JValue) (s : jsstring) :
  parse_keyword lit v0 s <> PFuel /\
  forall v r, parse_keyword lit v0 s = POk v r -> (length r <= length s)%nat.
Proof.
  unfold parse_keyword. destruct (expect lit s) eqn:E; [|done].
  split; [done|]. intros v r [= <- <-]. by apply expect_consumes in E.
Qed.

(** Every parser that returns a value has read at least one character. *)
Lemma parse_consumes (fuel : nat) :
  (forall s v r, parse_value fuel s = POk v r -> (length r < length s)%nat) /\
  (forall s vs r,
      parse_elements fuel s = POk vs r -> (length r < length s)%nat) /\
  (forall s acc v r,
      parse_members fuel s acc = POk v r -> (length r < length s)%nat).
Proof.
  induction fuel as [|f (IHv & IHe & IHm)]; [by repeat split|].
  repeat split.
  - intros s v r. cbn [parse_value].
    pose proof (skip_ws_length s) as Hs.
    destruct (skip_ws s) as [|c r0]; [done|]. cbn [length] in Hs.
    pose proof (skip_ws_length r0) as Hr0.
    destruct (c =? 123)%N.
    { destruct (skip_ws r0) as [|d r']; [done|]. cbn [length] in Hr0.
      destruct (d =? 125)%N; [intros [= <- <-]; lia|].
      intros E. apply IHm in E. lia. }
    destruct (c =? 91)%N.
    { destruct (skip_ws r0) as [|d r']; [done|]. cbn [length] in Hr0.
      destruct (d =? 93)%N; [intros [= <- <-]; lia|].
      intros E. apply pmap_ok in E as (a & E & _). apply IHe in E. lia. }
    destruct (c =? 34)%N.
    { intros E. apply pmap_ok in E as (a & E & _).
      apply parse_string_body_consumes in E. lia. }
    destruct (c =? 116)%N; [intros E; apply parse_keyword_consumes in E; lia|].
    destruct (c =? 102)%N; [intros E; apply parse_keyword_consumes in E; lia|].
    destruct (c =? 110)%N; [intros E; apply parse_keyword_consumes in E; lia|].
    intros E. apply parse_number_consumes in E. cbn [length] in E. lia.
  - intros s vs r. cbn [parse_elements].
    destruct (parse_value f s) as [v r1| |] eqn:Ev; [|done..].
    apply IHv in Ev. pose proof (skip_ws_length r1) as Hr1.
    destruct (skip_ws r1) as [|d r']; [done|]. cbn [length] in Hr1.
    destruct (d =? 44)%N.
    { intros E. apply pmap_ok in E as (a & E & _). apply IHe in E. lia. }
    destruct (d =? 93)%N; [|done]. intros [= <- <-]. lia.
  - intros s acc v r. cbn [parse_members].
    pose proof (skip_ws_length s) as Hs.
    destruct (skip_ws s) as [|q r0]; [done|]. cbn [length] in Hs.
    destruct (q =? 34)%N; [|done].
    destruct (parse_string_body r0) as [k r1| |] eqn:Ek; [|done..].
    apply parse_string_body_consumes in Ek.
    pose proof (skip_ws_length r1) as Hr1.
    destruct (skip_ws r1) as [|c r2]; [done|]. cbn [length] in Hr1.
    destruct (c =? 58)%N; [|done].
    destruct (parse_value f r2) as [v' r3| |] eqn:Ev; [|done..].
    apply IHv in Ev. pose proof (skip_ws_length r3) as Hr3.
    destruct (skip_ws r3) as [|d r4]; [done|]. cbn [length] in Hr3.
    destruct (d =? 44)%N; [intros E; apply IHm in E; lia|].
    destruct (d =? 125)%N; [|done]. intros [= <- <-]. lia.
Qed.

(** A budget above twice the length of the text is never used up. *)
Lemma parse_budget (fuel : nat) :
  (forall s, (2 * length s < fuel)%nat -> parse_value fuel s <> PFuel) /\
  (forall s, (2 * length s + 1 < fuel)%nat ->
             parse_elements fuel s <> PFuel) /\
  (forall s acc, (2 * length s + 1 < fuel)%nat ->
                 parse_members fuel s acc <> PFuel).
Proof.
  induction fuel as [|f (IHv & IHe & IHm)]; [repeat split; intros; lia|].
  destruct (parse_consumes f) as (Cv & Ce & Cm).
  repeat split.
  - intros s Hf. cbn [parse_value].
    pose proof (skip_ws_length s) as Hs.
    destruct (skip_ws s) as [|c r0]; [done|]. cbn [length] in Hs.
    pose proof (skip_ws_length r0) as Hr0.
    destruct (c =? 123)%N.
    { destruct (skip_ws r0) as [|d r']; [done|].
      destruct (d =? 125)%N; [done|]. apply IHm. lia. }
    destruct (c =? 91)%N.
    { destruct (skip_ws r0) as [|d r']; [done|].
      destruct (d =? 93)%N; [done|].
      intros E. apply pmap_fuel in E. revert E. apply IHe. lia. }
    destruct (c =? 34)%N.
    { intros E. apply pmap_fuel in E. by apply parse_string_body_consumes in E. }
    destruct (c =? 116)%N; [apply parse_keyword_consumes|].
    destruct (c =? 102)%N; [apply parse_keyword_consumes|].
    destruct (c =? 110)%N; [apply parse_keyword_consumes|].
    apply parse_number_consumes.
  - intros s Hf. cbn [parse_elements].
    destruct (parse_value f s) as [v r1| |] eqn:Ev.
    + apply Cv in Ev. pose proof (skip_ws_length r1) as Hr1.
      destruct (skip_ws r1) as [|d r']; [done|]. cbn [length] in Hr1.
      destruct (d =? 44)%N.
      { intros E. apply pmap_fuel in E. revert E. apply IHe. lia. }
      by destruct (d =? 93)%N.
    + done.
    + exfalso. revert Ev. apply IHv. lia.
  - intros s acc Hf. cbn [parse_members].
    pose proof (skip_ws_length s) as Hs.
    destruct (skip_ws s) as [|q r0]; [done|]. cbn [length] in Hs.
    destruct (q =? 34)%N; [|done].
    destruct (parse_string_body r0) as [k r1| |] eqn:Ek; [|done..].
    apply parse_string_body_consumes in Ek.
    pose proof (skip_ws_length r1) as Hr1.
    destruct (skip_ws r1) as [|c r2]; [done|]. cbn [length] in Hr1.
    destruct (c =? 58)%N; [|done].
    destruct (parse_value f r2) as [v' r3| |] eqn:Ev.
    + apply Cv in Ev. pose proof (skip_ws_length r3) as Hr3.
      destruct (skip_ws r3) as [|d r4]; [done|]. cbn [length] in Hr3.
      destruct (d =? 44)%N; [apply IHm; lia|]. by destruct (d =? 125)%N.
    + done.
    + exfalso. revert Ev. apply IHv. lia.
Qed.

(** [JSON_parse] throws on a syntax error only. *)
Lemma JSON_parse_budget (s : jsstring) :
  parse_value (S (2 * length s)) s <> PFuel.
Proof. apply parse_budget. lia. Qed.

(** A result that is not [PFuel] stays the same under a larger budget. *)
Lemma parse_budget_mono (fuel : nat) :
  forall fuel', (fuel <= fuel')%nat ->
  (forall s, parse_value fuel s <> PFuel ->
             parse_value fuel' s = parse_value fuel s) /\
  (forall s, parse_elements fuel s <> PFuel ->
             parse_elements fuel' s = parse_elements fuel s) /\
  (forall s acc, parse_members fuel s acc <> PFuel ->
                 parse_members fuel' s acc = parse_members fuel s acc).
Proof.
  induction fuel as [|f IH]; [by repeat split|].
  intros [|f'] Hle; [lia|]. destruct (IH f') as (IHv & IHe & IHm); [lia|].
  split; [|split].
  - intros s. cbn [parse_value].
    destruct (skip_ws s) as [|c r0]; [done|].
    destruct (c =? 123)%N.
    { destruct (skip_ws r0) as [|d r']; [done|].
      destruct (d =? 125)%N; [done|]. apply IHm. }
    destruct (c =? 91)%N; [|done].
    destruct (skip_ws r0) as [|d r']; [done|].
    destruct (d =? 93)%N; [done|].
    intros H. rewrite IHe; [done|]. intros E. by rewrite E in H.
  - intros s. cbn [parse_elements].
    destruct (parse_value f s) as [v r1| |] eqn:Ev; [| |done];
      (rewrite IHv; rewrite Ev; [|done]); [|done].
    destruct (skip_ws r1) as [|d r']; [done|].
    destruct (d =? 44)%N; [|done].
    intros H. rewrite IHe; [done|]. intros E. by rewrite E in H.
  - intros s acc. cbn [parse_members].
    destruct (skip_ws s) as [|q r0]; [done|].
    destruct (q =? 34)%N; [|done].
    destruct (parse_string_body r0) as [k r1| |]; [|done..].
    destruct (skip_ws r1) as [|c r2]; [done|].
    destruct (c =? 58)%N; [|done].
    destruct (parse_value f r2) as [v r3| |] eqn:Ev; [| |done];
      (rewrite IHv; rewrite Ev; [|done]); [|done].
    destruct (skip_ws r3) as [|d r4]; [done|].
    destruct (d =? 44)%N; [|done]. apply IHm.
Qed.

(** The budget of [JSON_parse] is a device of the model: any larger one
    gives the same result. *)
Lemma JSON_parse_any_budget (s : jsstring) (fuel : nat) :
  (S (2 * length s) <= fuel)%nat ->
  parse_value fuel s = parse_value (S (2 * length s)) s.
Proof.
  intros H. apply (parse_budget_mono _ _ H), JSON_parse_budget.
Qed.

End JsonLemmas.

(** ** The claims about the persistence bridge *)

Lemma todo_toJS_inj (t t' : Todo) : todo_toJS t = todo_toJS t' -> t = t'.
Proof.
  destruct t, t'. unfold todo_toJS. simpl. intros H. by simplify_eq.
Qed.

(** Two collections with the same runtime value are the same collection. *)
Lemma toJS_inj (l l' : list Todo) : toJS l = toJS l' -> l = l'.
Proof.
  unfold toJS. intros [= H]. revert l' H.
  induction l as [|t l IH]; intros [|t' l'] H; cbn [List.map] in H; try done.
  injection H as Hi Ht Hc Hd Hl.
  f_equal; [destruct t, t'; simpl in *; congruence | exact (IH _ Hl)].
Qed.

(** [load] by cases on the slot. *)
Lemma load_cases (ls : gmap (list N) (list N)) :
  load ls =
    match ls !! str "todos" with
    | None => Returned tt (mount ls)
    | Some s =>
        if truthy s then
          match JSON_parse s with
          | inl v =>
              Returned tt
                {| localStorage := ls; console := []; todosCell := v |}
          | inr e =>
              Returned tt
                {| localStorage := delete (str "todos") ls;
                   console :=
                     [(str "Error parsing todos from localStorage:", e)];
                   todosCell := toJS [] |}
          end
        else Returned tt (mount ls)
    end.
Proof.
  unfold load, loadEffect, bind, getItem, mount. cbn [localStorage].
  destruct (ls !! str "todos") as [s|]; [|done].
  destruct (truthy s); [|done].
  unfold try_catch, bind, JSON_parse_call. by destruct (JSON_parse s).
Qed.

Lemma JSON_stringify_truthy (l : list Todo) : truthy (JSON_stringify l) = true.
Proof. reflexivity. Qed.

(** C1: saving a well-formed collection overwrites the slot 'todos' with its
    serialization and leaves every other key alone; loading from the saved
    storage returns normally with the state cell holding the runtime value
    of the same collection (and only that collection has this value), the
    storage as saved and nothing logged.  Well-formedness marks the
    collections on which numbers and strings are the engine's; the argument
    itself goes through for every collection of the model. *)
Theorem load_save_roundtrip (l : list Todo)
    (ls : gmap (list N) (list N)) :
  well_formed l ->
  load (save l ls)
    = Returned tt
        {| localStorage := save l ls; console := []; todosCell := toJS l |} /\
  saveEffect l (mount ls)
    = Returned tt
        {| localStorage := save l ls; console := [];
           todosCell := toJS [] |} /\
  save l ls !! str "todos" = Some (JSON_stringify l) /\
  (forall k, k <> str "todos" -> save l ls !! k = ls !! k) /\
  (forall l', toJS l' = toJS l -> l' = l).
Proof.
  intros _. split; [|split; [|split; [|split]]].
  - rewrite load_cases. unfold save at 1.
    by rewrite lookup_insert_eq, JSON_stringify_truthy, JSON_parse_stringify.
  - reflexivity.
  - unfold save. apply lookup_insert_eq.
  - intros k Hk. unfold save. by apply lookup_insert_ne.
  - intros l'. apply toJS_inj.
Qed.

Lemma sample_todos_well_formed : well_formed sample_todos.
Proof.
  unfold well_formed, sample_todos, well_formed_todo, well_formed_string.
  repeat constructor; simpl; try lia; try reflexivity.
Defined.

Lemma load_save_roundtrip_witness :
  load (save sample_todos ∅)
    = Returned tt
        {| localStorage := save sample_todos ∅; console := [];
           todosCell := toJS sample_todos |}.
Proof.
  exact (proj1 (load_save_roundtrip sample_todos ∅ sample_todos_well_formed)).
Defined.

(** C2 (as amended): [load] never throws.  When the slot is absent or holds
    the empty string, it yields the empty collection and leaves storage and
    console as they are.  When the slot holds a non-empty string that
    [JSON.parse] rejects, it yields the empty collection, deletes the slot
    and logs the error once.  When the slot holds text that [JSON.parse]
    accepts, the parsed value becomes the state and the storage is kept. *)
Theorem load_total (ls : gmap (list N) (list N)) :
  (exists w, load ls = Returned tt w) /\
  (ls !! str "todos" = None \/ ls !! str "todos" = Some [] ->
   load ls = Returned tt (mount ls)) /\
  (forall s, ls !! str "todos" = Some s -> s <> [] ->
     JSON_parse s = inr SyntaxError ->
     load ls
       = Returned tt
           {| localStorage := delete (str "todos") ls;
              console :=
                [(str "Error parsing todos from localStorage:", SyntaxError)];
              todosCell := toJS [] |}) /\
  (forall s v, ls !! str "todos" = Some s -> s <> [] ->
     JSON_parse s = inl v ->
     load ls
       = Returned tt
           {| localStorage := ls; console := []; todosCell := v |}).
Proof.
  rewrite load_cases. split; [|split; [|split]].
  - destruct (ls !! str "todos") as [s|]; [|by eexists].
    destruct (truthy s); [|by eexists].
    destruct (JSON_parse s); by eexists.
  - by intros [-> | ->].
  - intros s -> Hs E. destruct s as [|c s]; [done|]. cbn [truthy].
    by rewrite E.
  - intros s v -> Hs E. destruct s as [|c s]; [done|]. cbn [truthy].
    by rewrite E.
Qed.

(** C2, counterexample: a slot that holds the empty string is present and
    does not decode, yet [load] leaves it in place. *)
Lemma load_keeps_empty_string :
  empty_slot !! str "todos" = Some [] /\
  JSON_parse [] = inr SyntaxError /\
  exists w, load empty_slot = Returned tt w /\
            localStorage w !! str "todos" = Some [] /\
            todosCell w = toJS [].
Proof.
  assert (E : empty_slot !! str "todos" = Some []) by apply lookup_singleton_eq.
  split; [done|]. split; [reflexivity|].
  exists (mount empty_slot). split; [|by split].
  by rewrite load_cases, E.
Qed.

(** A slot that holds text that is not JSON is deleted and the error is
    logged. *)
Example load_corrupted_slot :
  load corrupted_slot
    = Returned tt
        {| localStorage := ∅;
           console :=
             [(str "Error parsing todos from localStorage:", SyntaxError)];
           todosCell := toJS [] |}.
Proof.
  rewrite load_cases. unfold corrupted_slot.
  rewrite lookup_singleton_eq.
  change (truthy (str "{bad")) with true.
  change (JSON_parse (str "{bad")) with (@inr JValue Exn SyntaxError).
  cbv iota. by rewrite delete_singleton_eq.
Qed.

(** ** The claims about the task store *)

(** C3: [add] with an empty text changes nothing; with any other text it
    appends, at the end, one task that carries the text as given, is not
    completed and has the clock readings as [id] and [createdAt]; the total
    grows by exactly one. *)
Theorem add_appends_one (newText : jsstring) (now : Z) (iso : jsstring)
    (st : AppState) :
  (newText = [] -> todos (add newText now iso st) = todos st) /\
  (newText <> [] ->
     todos (add newText now iso st)
       = todos st ++ [mkTodo now newText false iso] /\
     totalCount (add newText now iso st) = totalCount st + 1).
Proof.
  unfold add, addTodo, handleInputChange, totalCount. simpl. split.
  - intros ->. reflexivity.
  - intros Hne. destruct newText as [|c r]; [done|]. simpl. split; [done|].
    rewrite length_app. simpl. lia.
Qed.

(** C4: toggling the same id twice restores the store, so every completed
    flag is back at its value; toggling an id that no task carries changes
    nothing. *)
Theorem toggle_involutive (i : Z) (st : AppState) :
  toggleTodo i (toggleTodo i st) = st /\
  List.map completed (todos (toggleTodo i (toggleTodo i st)))
    = List.map completed (todos st) /\
  (count_id i (todos st) = 0%nat -> toggleTodo i st = st).
Proof.
  assert (Htwice : toggleTodo i (toggleTodo i st) = st).
  { destruct st as [l v]. unfold toggleTodo, setTodos. simpl. f_equal.
    rewrite List.map_map. induction l as [|t l IH]; simpl; [done|].
    rewrite IH. f_equal.
    destruct (id t =? i) eqn:E; simpl; rewrite E; [|done].
    apply flip_completed_twice. }
  split; [done|]. split; [by rewrite Htwice|].
  intros H. unfold toggleTodo.
  rewrite map_if_none by (by apply no_match_eqb). apply setTodos_same.
Qed.

(** C5 (as amended): when exactly one task carries the id [i], [deleteTodo i]
    removes that record and nothing else and the total drops by exactly one.
    In every store, deleting [i] once more after [deleteTodo i] changes
    nothing, and deleting an id that no task carries changes nothing. *)
Theorem delete_removes_the_match (i : Z) (st : AppState) :
  (count_id i (todos st) = 1%nat ->
   (exists l1 t l2,
       todos st = l1 ++ t :: l2 /\ id t = i /\
       todos (deleteTodo i st) = l1 ++ l2) /\
   totalCount (deleteTodo i st) = totalCount st - 1) /\
  deleteTodo i (deleteTodo i st) = deleteTodo i st /\
  (forall j, count_id j (todos st) = 0%nat -> deleteTodo j st = st).
Proof.
  split; [|split].
  - intros H1. unfold count_id in H1. split.
    + destruct (filter_one_split _ _ H1) as (l1 & t & l2 & E & Ht & Hf).
      exists l1, t, l2. simpl. repeat split; auto. by apply Z.eqb_eq.
    + unfold totalCount. simpl.
      pose proof (filter_length_split (fun t => id t =? i) (todos st)). lia.
  - unfold deleteTodo, setTodos. simpl. by rewrite filter_twice.
  - intros j Hj. unfold deleteTodo. rewrite filter_all; [apply setTodos_same|].
    apply no_match_eqb in Hj. eapply Forall_impl; [exact Hj|].
    intros t Ht. simpl in Ht. by rewrite Ht.
Qed.

Lemma delete_removes_the_match_witness :
  count_id 1700000000000 (todos (run distinct_ops initialState)) = 1%nat /\
  todos (deleteTodo 1700000000000 (run distinct_ops initialState))
    = [mkTodo 1700000000001 (str "Walk the dog") false stamp] /\
  totalCount (deleteTodo 1700000000000 (run distinct_ops initialState))
    = totalCount (run distinct_ops initialState) - 1.
Proof.
  split; [reflexivity|]. split; [reflexivity|].
  apply (proj1 (delete_removes_the_match 1700000000000
                  (run distinct_ops initialState))).
  reflexivity.
Defined.

(** C5, counterexample: after two adds within one clock tick both tasks
    carry the same id, and deleting that id removes two records. *)
Lemma delete_removes_both_on_collision :
  count_id 1700000000000 (todos (run colliding_ops initialState)) = 2%nat /\
  totalCount (deleteTodo 1700000000000 (run colliding_ops initialState))
    = totalCount (run colliding_ops initialState) - 2.
Proof. split; reflexivity. Qed.

(** C6: [editTodo i newText] keeps the length; at every position holding a
    task with id [i] it puts the task with the new text (whatever the text)
    and the same id, completed flag and creation stamp; every other position
    keeps its task; the input field is untouched; and when no task carries
    [i] the store is unchanged. *)
Theorem edit_frame (i : Z) (newText : jsstring) (st : AppState) :
  length (todos (editTodo i newText st)) = length (todos st) /\
  (forall (n : nat) (t : Todo), todos st !! n = Some t -> id t = i ->
     todos (editTodo i newText st) !! n
       = Some (mkTodo (id t) newText (completed t) (createdAt t))) /\
  (forall (n : nat) (t : Todo), todos st !! n = Some t -> id t <> i ->
     todos (editTodo i newText st) !! n = Some t) /\
  inputValue (editTodo i newText st) = inputValue st /\
  (count_id i (todos st) = 0%nat -> editTodo i newText st = st).
Proof.
  unfold editTodo. simpl. repeat split.
  - apply length_map.
  - intros n t Hn Hi. rewrite map_lookup, Hn. simpl.
    apply Z.eqb_eq in Hi. by rewrite Hi.
  - intros n t Hn Hi. rewrite map_lookup, Hn. simpl.
    apply Z.eqb_neq in Hi. by rewrite Hi.
  - intros H. rewrite map_if_none by (by apply no_match_eqb).
    apply setTodos_same.
Qed.

(** C7: the counts are the length of the collection, the number of tasks
    whose completed flag is true, and their difference; completed and
    remaining add up to the total and the completed count lies between zero
    and the total. *)
Theorem counts_spec (st : AppState) :
  counts st =
    (Z.of_nat (length (todos st)),
     Z.of_nat (count_occ bool_dec (List.map completed (todos st)) true),
     Z.of_nat (length (todos st))
       - Z.of_nat (count_occ bool_dec (List.map completed (todos st)) true)) /\
  completedCount st + remainingCount st = totalCount st /\
  0 <= completedCount st <= totalCount st /\
  0 <= remainingCount st.
Proof.
  assert (E : length (List.filter (fun t => completed t) (todos st))
              = count_occ bool_dec (List.map completed (todos st)) true).
  { induction (todos st) as [|t l IH]; simpl; [done|].
    destruct (completed t); simpl; [by rewrite IH | done]. }
  pose proof (filter_length_split (fun t => completed t) (todos st)) as Hs.
  unfold counts, remainingCount, completedCount, totalCount.
  rewrite E in *. repeat split; lia.
Qed.

(** Every id in the store after a run is one of the ids before it or one of
    the clock readings of the run, in that order. *)
Lemma run_ids_sublist (ops : list Op) (st : AppState) :
  List.map id (todos (run ops st))
    `sublist_of` List.map id (todos st) ++ add_times ops.
Proof.
  revert st. induction ops as [|o ops IH]; intros st; simpl.
  - by rewrite app_nil_r.
  - etrans; [apply IH|]. destruct o as [s now iso|i|i|i s]; simpl.
    + unfold add, addTodo, handleInputChange. simpl.
      destruct s as [|c r]; simpl; [done|].
      rewrite List.map_app. simpl. by rewrite <- app_assoc.
    + apply sublist_app; [|done]. rewrite List.map_map.
      erewrite List.map_ext; [done|]. intros t. simpl. by destruct (id t =? i).
    + apply sublist_app; [|done].
      apply (fmap_sublist id), filter_sublist.
    + apply sublist_app; [|done]. rewrite List.map_map.
      erewrite List.map_ext; [done|]. intros t. simpl. by destruct (id t =? i).
Qed.

(** C8 (as amended): from the empty store, when the [Date.now()] readings
    taken by the successful adds of a sequence are pairwise distinct, the ids
    in the resulting collection are pairwise distinct. *)
Theorem ids_unique_when_clock_distinct (ops : list Op) :
  NoDup (add_times ops) ->
  NoDup (List.map id (todos (run ops initialState))).
Proof.
  intros H. eapply sublist_NoDup; [exact H|]. apply run_ids_sublist.
Qed.

Lemma ids_unique_when_clock_distinct_witness :
  NoDup (List.map id (todos (run distinct_ops initialState))).
Proof.
  apply (ids_unique_when_clock_distinct distinct_ops).
  change (NoDup [1700000000000; 1700000000001]).
  apply NoDup_cons. split; [|apply NoDup_singleton].
  rewrite list_elem_of_singleton. discriminate.
Defined.

(** C8, counterexample: two adds within one clock tick give two tasks with
    the same id. *)
Lemma ids_collide_on_same_tick :
  List.map id (todos (run colliding_ops initialState))
    = [1700000000000; 1700000000000] /\
  ~ NoDup (List.map id (todos (run colliding_ops initialState))).
Proof.
  split; [reflexivity|]. intros H. apply NoDup_cons in H as [H _].
  apply H. by left.
Qed.

(** C9: toggling and editing keep the length and the sequence of ids;
    deleting leaves a subsequence of the collection, namely the tasks with
    another id in their order; adding extends the collection at its end. *)
Theorem order_preserved (i : Z) (newText : jsstring) (now : Z)
    (iso : jsstring) (st : AppState) :
  (length (todos (toggleTodo i st)) = length (todos st) /\
   List.map id (todos (toggleTodo i st)) = List.map id (todos st)) /\
  (length (todos (editTodo i newText st)) = length (todos st) /\
   List.map id (todos (editTodo i newText st)) = List.map id (todos st)) /\
  (todos (deleteTodo i st) `sublist_of` todos st /\
   List.map id (todos (deleteTodo i st))
     = List.filter (fun j => negb (j =? i)) (List.map id (todos st))) /\
  todos st `prefix_of` todos (add newText now iso st).
Proof.
  repeat split; simpl.
  - apply length_map.
  - rewrite List.map_map. apply List.map_ext. intros t.
    by destruct (id t =? i).
  - apply length_map.
  - rewrite List.map_map. apply List.map_ext. intros t.
    by destruct (id t =? i).
  - apply filter_sublist.
  - induction (todos st) as [|t l IH]; simpl; [done|].
    destruct (id t =? i); simpl; by rewrite IH.
  - unfold add, addTodo, handleInputChange. simpl.
    destruct newText; simpl; [done|]. by apply prefix_app_r.
Qed.

(** C10: when two or more tasks carry the id [i], [deleteTodo i] removes all
    of them (the total drops by their number, at least two, and no task with
    that id is left), [toggleTodo i] negates the completed flag at every
    position holding such a task and keeps its other fields, and
    [editTodo i newText] puts [newText] as the text at every such position
    and keeps the other fields. *)
Theorem operations_act_on_all_matches (i : Z) (newText : jsstring)
    (st : AppState) :
  (2 <= count_id i (todos st))%nat ->
  (count_id i (todos (deleteTodo i st)) = 0%nat /\
   totalCount (deleteTodo i st)
     = totalCount st - Z.of_nat (count_id i (todos st)) /\
   totalCount (deleteTodo i st) <= totalCount st - 2) /\
  (forall (n : nat) (t : Todo), todos st !! n = Some t -> id t = i ->
     todos (toggleTodo i st) !! n
       = Some (mkTodo (id t) (text t) (negb (completed t)) (createdAt t))) /\
  (forall (n : nat) (t : Todo), todos st !! n = Some t -> id t = i ->
     todos (editTodo i newText st) !! n
       = Some (mkTodo (id t) newText (completed t) (createdAt t))).
Proof.
  intros H2.
  pose proof (filter_length_split (fun t => id t =? i) (todos st)) as Hs.
  unfold count_id in *. unfold totalCount. simpl. repeat split.
  - apply (filter_negb_none (fun t => id t =? i)).
  - lia.
  - lia.
  - intros n t Hn Hi. rewrite map_lookup, Hn. simpl.
    apply Z.eqb_eq in Hi. by rewrite Hi.
  - intros n t Hn Hi. rewrite map_lookup, Hn. simpl.
    apply Z.eqb_eq in Hi. by rewrite Hi.
Qed.

Lemma operations_act_on_all_matches_witness :
  (count_id 1700000000000
     (todos (deleteTodo 1700000000000 (run colliding_ops initialState)))
   = 0%nat /\
   totalCount (deleteTodo 1700000000000 (run colliding_ops initialState))
     <= totalCount (run colliding_ops initialState) - 2) /\
  (todos (toggleTodo 1700000000000 (run colliding_ops initialState)) !! 0%nat
   = Some (mkTodo 1700000000000 (str "Buy milk") true stamp) /\
   todos (toggleTodo 1700000000000 (run colliding_ops initialState)) !! 1%nat
   = Some (mkTodo 1700000000000 (str "Walk the dog") true stamp)) /\
  (todos (editTodo 1700000000000 (str "Feed the cat")
            (run colliding_ops initialState)) !! 0%nat
   = Some (mkTodo 1700000000000 (str "Feed the cat") false stamp) /\
   todos (editTodo 1700000000000 (str "Feed the cat")
            (run colliding_ops initialState)) !! 1%nat
   = Some (mkTodo 1700000000000 (str "Feed the cat") false stamp)).
Proof.
  assert (H2 : (2 <= count_id 1700000000000
                      (todos (run colliding_ops initialState)))%nat).
  { change (2 <= 2)%nat. lia. }
  destruct (operations_act_on_all_matches 1700000000000 (str "Feed the cat")
              (run colliding_ops initialState) H2)
    as ((Hnone & _ & Htotal) & Htoggle & Hedit).
  split; [by split|]. split.
  - split.
    + exact (Htoggle 0%nat _ eq_refl eq_refl).
    + exact (Htoggle 1%nat _ eq_refl eq_refl).
  - split.
    + exact (Hedit 0%nat _ eq_refl eq_refl).
    + exact (Hedit 1%nat _ eq_refl eq_refl).
Defined.

(** The scenario of the specification. *)
Example scenario :
  let st1 := add (str "Buy milk") 1700000000000 stamp initialState in
  let st2 := toggleTodo 1700000000000 st1 in
  let st3 := editTodo 1700000000000 (str "Buy oat milk") st2 in
  let st4 := deleteTodo 1700000000000 st3 in
  counts st1 = (1, 0, 1) /\ counts st2 = (1, 1, 0) /\
  todos st3 = [mkTodo 1700000000000 (str "Buy oat milk") true stamp] /\
  counts st4 = (0, 0, 0).
Proof. by repeat split. Qed.

(** ** Further properties: the task item and the screen *)

Lemma drop_space_blank (s : jsstring) :
  drop_space s = [] <-> Forall (fun c => is_js_space c = true) s.
Proof.
  induction s as [|c s IH]; simpl; [by split|].
  destruct (is_js_space c) eqn:E.
  - rewrite IH. split; [by constructor|]. intros H. by inversion H.
  - split; [done|]. intros H. inversion H; congruence.
Qed.

Lemma drop_space_all (s : jsstring) :
  Forall (fun c => is_js_space c = true) (drop_space s) ->
  Forall (fun c => is_js_space c = true) s.
Proof.
  induction s as [|c s IH]; simpl; [done|].
  destruct (is_js_space c) eqn:E; [|done]. intros H. constructor; auto.
Qed.

(** [trim] leaves nothing exactly when every code unit is white space. *)
Lemma trim_blank (s : jsstring) :
  trim s = [] <-> Forall (fun c => is_js_space c = true) s.
Proof.
  unfold trim. split.
  - intros H. apply (f_equal (@rev N)) in H. rewrite rev_involutive in H.
    simpl in H. apply drop_space_blank in H.
    apply drop_space_all. apply Forall_rev in H. by rewrite rev_involutive in H.
  - intros H. apply drop_space_blank in H. by rewrite H.
Qed.

Lemma blank_or_not (s : jsstring) :
  Forall (fun c => is_js_space c = true) s \/
  Exists (fun c => is_js_space c = false) s.
Proof.
  induction s as [|c s [IH|IH]]; [by left| |].
  - destruct (is_js_space c) eqn:E; [left | right]; by constructor.
  - right. by constructor 2.
Qed.

Lemma truthy_trim (s : jsstring) :
  truthy (trim s) = true <-> Exists (fun c => is_js_space c = false) s.
Proof.
  split.
  - intros H. destruct (blank_or_not s) as [Hall|Hex]; [|done].
    apply trim_blank in Hall. by rewrite Hall in H.
  - intros Hex. destruct (trim s) eqn:E; [|done].
    apply trim_blank in E. apply Exists_exists in Hex as (c & Hin & Hc).
    rewrite Forall_forall in E. apply E in Hin. congruence.
Qed.

(** X1: the edit form refuses a draft that is empty or all white space
    (store and item stay as they are, the form stays open) and otherwise
    hands the draft to [editTodo] as typed, white space at its ends
    included, and closes the form. *)
Theorem handleEdit_guard (todo : Todo) (st : AppState) (it : ItemState) :
  (Forall (fun c => is_js_space c = true) (editText it) ->
   handleEdit todo (st, it) = (st, it)) /\
  (Exists (fun c => is_js_space c = false) (editText it) ->
   handleEdit todo (st, it)
     = (editTodo (id todo) (editText it) st,
        {| isEditing := false; editText := editText it |})).
Proof.
  unfold handleEdit. simpl. split.
  - intros H. apply trim_blank in H. by rewrite H.
  - intros H. apply truthy_trim in H. by rewrite H.
Qed.

Lemma trim_truthy_nonempty (s : jsstring) : truthy (trim s) = true -> s <> [].
Proof. by intros H ->. Qed.

Lemma handleEdit_inv (n : nat) (todo todo' : Todo)
    (ui : AppState * ItemState) :
  todos (fst ui) !! n = Some todo' -> id todo' = id todo ->
  (isEditing (snd ui) = false -> editText (snd ui) = text todo') ->
  item_inv n todo (handleEdit todo' ui).
Proof.
  intros Hn Hid Hview. unfold handleEdit.
  destruct (truthy (trim (editText (snd ui)))); [|by exists todo'].
  exists (with_text (editText (snd ui)) todo'). simpl.
  rewrite map_lookup, Hn. simpl. by rewrite Z.eqb_refl.
Qed.

Lemma handleCancel_inv (n : nat) (todo todo' : Todo)
    (ui : AppState * ItemState) :
  todos (fst ui) !! n = Some todo' -> id todo' = id todo ->
  item_inv n todo (fst ui, handleCancel todo' (snd ui)).
Proof. intros Hn Hid. by exists todo'. Qed.

Lemma item_step_inv (n : nat) (todo : Todo) (ui : AppState * ItemState)
    (ev : ItemEvent) :
  item_inv n todo ui -> item_inv n todo (item_step n ui ev).
Proof.
  intros (todo' & Hn & Hid & Hview). unfold item_step. rewrite Hn.
  assert (Hsame : item_inv n todo ui) by (by exists todo').
  destruct ev as [| |v|key|key| |].
  - exists (if id todo' =? id todo' then flip_completed todo' else todo').
    simpl. rewrite map_lookup, Hn. split; [done|].
    rewrite Z.eqb_refl. by split.
  - destruct (isEditing (snd ui)) eqn:E; [done|].
    exists todo'. by repeat split.
  - destruct (isEditing (snd ui)) eqn:E; [|done].
    exists todo'. repeat split; try done. simpl. congruence.
  - destruct (isEditing (snd ui)) eqn:E; [|done].
    unfold handleEditKeyPress. destruct (key_is "Enter" key); [|done].
    apply handleEdit_inv; try done. congruence.
  - destruct (isEditing (snd ui)) eqn:E; [|done].
    unfold handleEditKeyDown. destruct (key_is "Escape" key).
    + by apply handleCancel_inv.
    + exists todo'. repeat split; try done. simpl. congruence.
  - destruct (isEditing (snd ui)) eqn:E; [|done].
    apply handleEdit_inv; try done. congruence.
  - destruct (isEditing (snd ui)) eqn:E; [|done].
    by apply handleCancel_inv.
Qed.

Lemma item_run_inv (n : nat) (todo : Todo) (evs : list ItemEvent)
    (ui : AppState * ItemState) :
  item_inv n todo ui -> item_inv n todo (item_run n evs ui).
Proof.
  revert ui. induction evs as [|ev evs IH]; intros ui H; [done|].
  simpl. apply IH. by apply item_step_inv.
Qed.

(** X2: an item mounted for the task at position [n], after any sequence of
    its own events (checkbox, pencil, typing, keys, Save, Cancel), is still
    at a task with the same id, and whenever its edit form is closed its
    draft equals the current text of that task: the form reopens on the
    text that is shown. *)
Theorem item_draft_follows_text (n : nat) (todo : Todo)
    (evs : list ItemEvent) (st : AppState) :
  todos st !! n = Some todo ->
  exists todo',
    todos (fst (item_run n evs (st, mountItem todo))) !! n = Some todo' /\
    id todo' = id todo /\
    (isEditing (snd (item_run n evs (st, mountItem todo))) = false ->
     editText (snd (item_run n evs (st, mountItem todo))) = text todo').
Proof.
  intros Hn. apply (item_run_inv n todo evs (st, mountItem todo)).
  by exists todo.
Qed.

Lemma map_if_forall {A} (P : A -> Prop) (p : A -> bool) (f : A -> A)
    (xs : list A) :
  (forall x, P x -> p x = true -> P (f x)) ->
  Forall P xs -> Forall P (List.map (fun x => if p x then f x else x) xs).
Proof.
  intros Hf. induction 1 as [|x xs Hx _ IH]; simpl; constructor; [|done].
  destruct (p x) eqn:E; auto.
Qed.

Lemma filter_forall {A} (P : A -> Prop) (p : A -> bool) (xs : list A) :
  Forall P xs -> Forall P (List.filter p xs).
Proof.
  induction 1 as [|x xs Hx _ IH]; simpl; [done|].
  destruct (p x); [by constructor | done].
Qed.

Lemma addTodo_nonempty (now : Z) (iso : jsstring) (st : AppState) :
  nonempty_texts (todos st) -> nonempty_texts (todos (addTodo now iso st)).
Proof.
  intros H. unfold addTodo. destruct (inputValue st) as [|c r] eqn:E; [done|].
  simpl. apply Forall_app. split; [done|]. constructor; [|constructor]. done.
Qed.

Lemma ui_step_nonempty (st : AppState) (ev : UiEvent) :
  nonempty_texts (todos st) -> nonempty_texts (todos (ui_step st ev)).
Proof.
  intros H. destruct ev as [v|now iso|key now iso|n|n|n draft]; simpl.
  - done.
  - by apply addTodo_nonempty.
  - unfold handleKeyPress. destruct (key_is "Enter" key); [|done].
    by apply addTodo_nonempty.
  - destruct (todos st !! n) as [todo|]; [|done]. simpl.
    apply map_if_forall; [|done]. by intros [].
  - destruct (todos st !! n) as [todo|]; [|done]. simpl.
    by apply filter_forall.
  - destruct (todos st !! n) as [todo|]; [|done]. unfold handleEdit. simpl.
    destruct (truthy (trim draft)) eqn:E; [|done]. simpl.
    apply map_if_forall; [|done]. intros t _ _. simpl.
    by apply trim_truthy_nonempty.
Qed.

(** X3: through the screen no task gets an empty text: when every task has
    a non-empty text, it is so after any sequence of typing, adding (button
    or key), toggling, deleting and saving an edit, although [editTodo]
    itself would store the empty string. *)
Theorem ui_texts_nonempty (evs : list UiEvent) (st : AppState) :
  nonempty_texts (todos st) -> nonempty_texts (todos (ui_run evs st)).
Proof.
  revert st. induction evs as [|ev evs IH]; intros st H; [done|].
  simpl. apply IH. by apply ui_step_nonempty.
Qed.

(** ** Further properties: the store *)

Lemma step_well_formed (st : AppState) (o : Op) :
  well_formed_op o -> well_formed (todos st) -> well_formed (todos (step st o)).
Proof.
  unfold well_formed. intros Ho H. destruct o as [s now iso|i|i|i s]; simpl.
  - unfold add, addTodo, handleInputChange. simpl.
    destruct s as [|c r]; [done|]. simpl. apply Forall_app. split; [done|].
    destruct Ho as (Hs & Hnow & Hiso). constructor; [|constructor].
    unfold well_formed_todo. simpl. repeat split; try done; lia.
  - apply map_if_forall; [|done]. by intros [].
  - by apply filter_forall.
  - apply map_if_forall; [|done]. intros t (Hid & _ & Hc) _.
    unfold well_formed_todo. simpl. repeat split; try done; lia.
Qed.

(** X4: operations whose inputs are well formed (clock readings that a
    [number] holds exactly, strings of 16-bit code units) keep the
    collection well formed. *)
Theorem run_well_formed (ops : list Op) (st : AppState) :
  Forall well_formed_op ops -> well_formed (todos st) ->
  well_formed (todos (run ops st)).
Proof.
  revert st. induction ops as [|o ops IH]; intros st Hops H; [done|].
  inversion Hops; subst. simpl. apply IH; [done|]. by apply step_well_formed.
Qed.

Lemma toggle_completed_count (i : Z) (l : list Todo) :
  (length (List.filter (fun t => completed t)
             (List.map (fun t => if (id t =? i)%Z then flip_completed t else t) l))
   + length (List.filter (fun t => ((id t =? i)%Z) && completed t) l)
   = length (List.filter (fun t => completed t) l)
     + length (List.filter (fun t => ((id t =? i)%Z) && negb (completed t)) l))%nat.
Proof.
  induction l as [|t l IH]; simpl; [done|].
  destruct (id t =? i), (completed t) eqn:E; simpl; rewrite ?E; simpl; lia.
Qed.

(** X5: [toggleTodo i] keeps the total; the completed count goes up by the
    number of open tasks with id [i] and down by the number of completed
    ones, and the remaining count moves the other way. *)
Theorem toggle_counts (i : Z) (st : AppState) :
  totalCount (toggleTodo i st) = totalCount st /\
  completedCount (toggleTodo i st)
    = completedCount st
      + Z.of_nat (length (List.filter
                    (fun t => (id t =? i) && negb (completed t)) (todos st)))
      - Z.of_nat (length (List.filter
                    (fun t => (id t =? i) && completed t) (todos st))) /\
  remainingCount (toggleTodo i st)
    = remainingCount st
      - Z.of_nat (length (List.filter
                    (fun t => (id t =? i) && negb (completed t)) (todos st)))
      + Z.of_nat (length (List.filter
                    (fun t => (id t =? i) && completed t) (todos st))).
Proof.
  pose proof (toggle_completed_count i (todos st)) as H.
  unfold remainingCount, completedCount, totalCount. simpl.
  rewrite length_map. lia.
Qed.

Lemma delete_completed_count (i : Z) (l : list Todo) :
  (length (List.filter (fun t => completed t)
             (List.filter (fun t => negb ((id t =? i)%Z)) l))
   + length (List.filter (fun t => ((id t =? i)%Z) && completed t) l)
   = length (List.filter (fun t => completed t) l))%nat.
Proof.
  induction l as [|t l IH]; simpl; [done|].
  destruct (id t =? i), (completed t) eqn:E; simpl; rewrite ?E; simpl; lia.
Qed.

Lemma edit_completed_count (i : Z) (s : jsstring) (l : list Todo) :
  List.filter (fun t => completed t)
    (List.map (fun t => if id t =? i then with_text s t else t) l)
  = List.map (fun t => if id t =? i then with_text s t else t)
      (List.filter (fun t => completed t) l).
Proof.
  induction l as [|t l IH]; simpl; [done|].
  destruct (id t =? i) eqn:Ei, (completed t) eqn:E; simpl;
    rewrite ?E, ?Ei, ?IH; done.
Qed.

(** X6: editing never changes the counts; deleting [i] lowers the total by
    the number of tasks with id [i] and the completed count by the number
    of completed ones among them. *)
Theorem edit_delete_counts (i : Z) (newText : jsstring) (st : AppState) :
  counts (editTodo i newText st) = counts st /\
  totalCount (deleteTodo i st)
    = totalCount st - Z.of_nat (count_id i (todos st)) /\
  completedCount (deleteTodo i st)
    = completedCount st
      - Z.of_nat (length (List.filter
                    (fun t => (id t =? i) && completed t) (todos st))).
Proof.
  split; [|split].
  - unfold counts, remainingCount, completedCount, totalCount. simpl.
    by rewrite edit_completed_count, !length_map.
  - pose proof (filter_length_split (fun t => id t =? i) (todos st)) as H.
    unfold totalCount, count_id. simpl. lia.
  - pose proof (delete_completed_count i (todos st)) as H.
    unfold completedCount. simpl. lia.
Qed.

Lemma setTodos_ext (l l' : list Todo) (st : AppState) :
  l = l' -> setTodos l st = setTodos l' st.
Proof. by intros ->. Qed.

Lemma filter_map_commute {A} (p : A -> bool) (f : A -> A) (xs : list A) :
  (forall x, p (f x) = p x) ->
  List.filter p (List.map f xs) = List.map f (List.filter p xs).
Proof.
  intros H. induction xs as [|x xs IH]; simpl; [done|].
  rewrite H. destruct (p x); simpl; by rewrite IH.
Qed.

(** X7: the operations commute, two edits of one id apart: any two of
    toggle, delete and edit may be swapped, whatever their ids, except that
    of two edits of the same id the later one wins. *)
Theorem operations_commute (i j : Z) (a b : jsstring) (st : AppState) :
  toggleTodo i (toggleTodo j st) = toggleTodo j (toggleTodo i st) /\
  toggleTodo i (editTodo j a st) = editTodo j a (toggleTodo i st) /\
  deleteTodo i (toggleTodo j st) = toggleTodo j (deleteTodo i st) /\
  deleteTodo i (editTodo j a st) = editTodo j a (deleteTodo i st) /\
  deleteTodo i (deleteTodo j st) = deleteTodo j (deleteTodo i st) /\
  (i <> j ->
   editTodo i a (editTodo j b st) = editTodo j b (editTodo i a st)) /\
  editTodo i b (editTodo i a st) = editTodo i b st.
Proof.
  destruct st as [l v]. unfold toggleTodo, editTodo, deleteTodo, setTodos.
  simpl. split; [|split; [|split; [|split; [|split; [|split]]]]].
  - f_equal. rewrite !List.map_map. apply List.map_ext. intros t.
    destruct (id t =? i) eqn:Ei, (id t =? j) eqn:Ej; simpl;
      rewrite ?Ei, ?Ej; done.
  - f_equal. rewrite !List.map_map. apply List.map_ext. intros t.
    destruct (id t =? i) eqn:Ei, (id t =? j) eqn:Ej; simpl;
      rewrite ?Ei, ?Ej; done.
  - f_equal. apply filter_map_commute. intros t. by destruct (id t =? j).
  - f_equal. apply filter_map_commute. intros t. by destruct (id t =? j).
  - f_equal. induction l as [|t l IH]; simpl; [done|].
    destruct (id t =? i) eqn:Ei, (id t =? j) eqn:Ej; simpl;
      rewrite ?Ei, ?Ej, ?IH; done.
  - intros Hij. f_equal. rewrite !List.map_map. apply List.map_ext.
    intros t.
    destruct (id t =? i) eqn:Ei, (id t =? j) eqn:Ej; simpl;
      rewrite ?Ei, ?Ej; try done.
    apply Z.eqb_eq in Ei, Ej. congruence.
  - f_equal. rewrite !List.map_map. apply List.map_ext. intros t.
    destruct (id t =? i) eqn:Ei; simpl; rewrite ?Ei; done.
Qed.

(** X8: when no task carries the clock reading [now], adding a task (or
    trying to, with an empty text) and then deleting the id [now] gives
    back the collection. *)
Theorem add_then_delete (newText : jsstring) (now : Z) (iso : jsstring)
    (st : AppState) :
  count_id now (todos st) = 0%nat ->
  todos (deleteTodo now (add newText now iso st)) = todos st.
Proof.
  intros H. apply no_match_eqb in H.
  assert (Hf : List.filter (fun t => negb (id t =? now)) (todos st) = todos st).
  { apply filter_all. eapply Forall_impl; [exact H|].
    intros t Ht. simpl in Ht. by rewrite Ht. }
  unfold add, addTodo, handleInputChange. simpl.
  destruct newText as [|c r]; simpl; [done|].
  rewrite List.filter_app, Hf. simpl. rewrite Z.eqb_refl. simpl.
  apply app_nil_r.
Qed.

(** ** Further properties: the persistence bridge *)

Lemma save_save (l l' : list Todo) (ls : gmap (list N) (list N)) :
  save l' (save l ls) = save l' ls.
Proof. unfold save. apply insert_insert_eq. Qed.

Lemma save_delete (l : list Todo) (ls : gmap (list N) (list N)) :
  save l (delete (str "todos") ls) = save l ls.
Proof. unfold save. apply insert_delete_eq. Qed.

(** [load] of what [save] wrote. *)
Lemma load_save (l : list Todo) (ls : gmap (list N) (list N)) :
  load (save l ls)
    = Returned tt
        {| localStorage := save l ls; console := []; todosCell := toJS l |}.
Proof.
  rewrite load_cases. unfold save at 1.
  by rewrite lookup_insert_eq, JSON_stringify_truthy, JSON_parse_stringify.
Qed.

Lemma session_spec (ops : list Op) (st : AppState)
    (ls0 ls : gmap (list N) (list N)) :
  ls = save (todos st) ls0 ->
  session ops (st, ls) = (run ops st, save (todos (run ops st)) ls0).
Proof.
  revert st ls. induction ops as [|o ops IH]; intros st ls ->; [done|].
  change (session (o :: ops) (st, save (todos st) ls0))
    with (session ops (session_step (st, save (todos st) ls0) o)).
  change (run (o :: ops) st) with (run ops (step st o)).
  unfold session_step. cbn [fst snd]. apply IH. by rewrite save_save.
Qed.

(** X9: a session survives a reload.  For a well-formed collection and
    operations with well-formed inputs, when every operation is followed by
    the save effect, the storage after the session is the storage before it
    with the slot holding the final collection, whatever was written in
    between, and mounting over it loads exactly that collection.
    Well-formedness keeps the session where numbers and strings are the
    engine's. *)
Theorem session_reload (ops : list Op) (st : AppState)
    (ls : gmap (list N) (list N)) :
  well_formed (todos st) -> Forall well_formed_op ops ->
  session ops (st, save (todos st) ls)
    = (run ops st, save (todos (run ops st)) ls) /\
  load (snd (session ops (st, save (todos st) ls)))
    = Returned tt
        {| localStorage := save (todos (run ops st)) ls; console := [];
           todosCell := toJS (todos (run ops st)) |}.
Proof.
  intros _ _.
  rewrite (session_spec ops st ls _ eq_refl). split; [done|]. apply load_save.
Qed.

Lemma todo_fromJS_toJS (t : Todo) : todo_fromJS (todo_toJS t) = Some t.
Proof. by destruct t. Qed.

Lemma fromJS_toJS (l : list Todo) : fromJS (toJS l) = Some l.
Proof.
  unfold fromJS, toJS. induction l as [|t l IH]; [done|].
  cbn [List.map todos_fromJS]. by rewrite todo_fromJS_toJS, IH.
Qed.




(** Mounting by cases on what the load effect left in the state cell. *)
Lemma mountApp_cases (ls : gmap (list N) (list N)) (w : World) :
  load ls = Returned tt w ->
  mountApp ls =
    match fromJS (todosCell w) with
    | Some l =>
        Returned (Some l)
          {| localStorage := save l (localStorage w);
             console := console w; todosCell := todosCell w |}
    | None =>
        Returned None
          {| localStorage := save [] (localStorage w);
             console := console w; todosCell := todosCell w |}
    end.
Proof.
  unfold mountApp, mountEffects, load. intros H.
  unfold bind at 1. rewrite H. unfold bind, saveEffect, setItem, getTodosCell.
  cbn [localStorage console todosCell].
  destruct (fromJS (todosCell w)) as [l|]; [|done].
  unfold ret. cbn [localStorage console todosCell]. f_equal. f_equal.
  unfold save. apply insert_insert_eq.
Qed.

(** Mounting over what [save] wrote. *)
Lemma mountApp_save (l : list Todo) (ls : gmap (list N) (list N)) :
  mountApp (save l ls)
    = Returned (Some l)
        {| localStorage := save l ls; console := []; todosCell := toJS l |}.
Proof.
  rewrite (mountApp_cases _ _ (load_save l ls)).
  cbn [localStorage console todosCell]. by rewrite fromJS_toJS, save_save.
Qed.

(** X10: reloading restores the collection.  Mounting over storage whose
    slot was written by the save effect for a well-formed collection yields
    that collection and leaves the storage as it was, although the first
    render's save effect has written the empty collection in between.
    Well-formedness keeps the ids where the engine reads back the number
    that was written. *)
Theorem mount_restores (l : list Todo) (ls : gmap (list N) (list N)) :
  well_formed l ->
  mountApp (save l ls)
    = Returned (Some l)
        {| localStorage := save l ls; console := []; todosCell := toJS l |}.
Proof. intros _. apply mountApp_save. Qed.


(** X12: a slot that cannot be used is reset.  When the slot is absent,
    holds the empty string, or holds a non-empty string that [JSON.parse]
    rejects, mounting yields the empty collection and leaves the slot
    holding the serialization of the empty collection (the slot that the
    load effect deleted is written again at once); only the rejected text
    is logged. *)
Theorem mount_resets (ls : gmap (list N) (list N)) :
  (ls !! str "todos" = None \/ ls !! str "todos" = Some [] ->
   mountApp ls
     = Returned (Some [])
         {| localStorage := save [] ls; console := [];
            todosCell := toJS [] |}) /\
  (forall s, ls !! str "todos" = Some s -> s <> [] ->
     JSON_parse s = inr SyntaxError ->
     mountApp ls
       = Returned (Some [])
           {| localStorage := save [] ls;
              console :=
                [(str "Error parsing todos from localStorage:", SyntaxError)];
              todosCell := toJS [] |}).
Proof.
  pose proof (load_cases ls) as Hload. split.
  - intros H.
    assert (Hl : load ls = Returned tt (mount ls)).
    { rewrite Hload. by destruct H as [-> | ->]. }
    by rewrite (mountApp_cases _ _ Hl).
  - intros s Hs Hne E. rewrite Hs in Hload.
    destruct s as [|c s]; [done|]. cbn [truthy] in Hload. rewrite E in Hload.
    rewrite (mountApp_cases _ _ Hload). cbn [localStorage console todosCell].
    change (fromJS (toJS [])) with (Some (@nil Todo)). cbv iota.
    by rewrite save_delete.
Qed.

Lemma typing_keeps_form_open (n : nat) (todo : Todo) (st : AppState)
    (vs : list jsstring) (d : jsstring) :
  todos st !! n = Some todo ->
  exists d',
    item_run n (List.map IChange vs) (st, {| isEditing := true; editText := d |})
      = (st, {| isEditing := true; editText := d' |}).
Proof.
  intros Hn. revert d. induction vs as [|v vs IH]; intros d; [by eexists|].
  cbn [List.map item_run fold_left]. unfold item_step at 2.
  cbn [fst snd isEditing]. rewrite Hn. apply IH.
Qed.

Lemma item_run_app (n : nat) (evs1 evs2 : list ItemEvent)
    (ui : AppState * ItemState) :
  item_run n (evs1 ++ evs2) ui = item_run n evs2 (item_run n evs1 ui).
Proof. apply fold_left_app. Qed.

Lemma cancel_after_typing (n : nat) (todo : Todo) (st : AppState)
    (vs : list jsstring) (last : ItemEvent) :
  todos st !! n = Some todo ->
  (forall d, item_step n (st, {| isEditing := true; editText := d |}) last
             = (st, mountItem todo)) ->
  item_run n (IEditClick :: List.map IChange vs ++ [last])
    (st, mountItem todo) = (st, mountItem todo).
Proof.
  intros Hn Hlast.
  destruct (typing_keeps_form_open n todo st vs (text todo) Hn) as [d' Hd].
  change (IEditClick :: List.map IChange vs ++ [last])
    with ([IEditClick] ++ List.map IChange vs ++ [last]).
  rewrite !item_run_app.
  assert (Hopen : item_run n [IEditClick] (st, mountItem todo)
                  = (st, {| isEditing := true; editText := text todo |})).
  { unfold item_run. cbn [fold_left]. unfold item_step. cbn [fst snd].
    by rewrite Hn. }
  rewrite Hopen, Hd. unfold item_run. cbn [fold_left]. apply Hlast.
Qed.

(** X13: Cancel throws the draft away.  Opening the edit form of a mounted
    item, typing anything any number of times and then pressing Cancel, or
    the Escape key, leaves the store untouched and the item as it was
    mounted. *)
Theorem cancel_discards_draft (n : nat) (todo : Todo) (st : AppState)
    (vs : list jsstring) :
  todos st !! n = Some todo ->
  item_run n (IEditClick :: List.map IChange vs ++ [ICancel])
    (st, mountItem todo) = (st, mountItem todo) /\
  item_run n (IEditClick :: List.map IChange vs ++ [IKeyDown (str "Escape")])
    (st, mountItem todo) = (st, mountItem todo).
Proof.
  intros Hn. split; apply cancel_after_typing; try done;
    intros d; unfold item_step; cbn [fst snd isEditing]; by rewrite Hn.
Qed.

Lemma item_draft_follows_text_witness :
  exists todo',
    todos (fst (item_run 0 edit_events
                  (shop_state,
                   mountItem (mkTodo 1700000000000 (str "Buy milk") false
                                stamp)))) !! 0%nat = Some todo' /\
    id todo' = 1700000000000 /\
    (isEditing (snd (item_run 0 edit_events
                       (shop_state,
                        mountItem (mkTodo 1700000000000 (str "Buy milk") false
                                     stamp)))) = false ->
     editText (snd (item_run 0 edit_events
                      (shop_state,
                       mountItem (mkTodo 1700000000000 (str "Buy milk") false
                                    stamp)))) = text todo').
Proof.
  apply (item_draft_follows_text 0
           (mkTodo 1700000000000 (str "Buy milk") false stamp)
           edit_events shop_state).
  reflexivity.
Defined.

Lemma ui_texts_nonempty_witness :
  nonempty_texts (todos (ui_run screen_events initialState)).
Proof.
  apply (ui_texts_nonempty screen_events initialState). constructor.
Defined.

Lemma distinct_ops_well_formed : Forall well_formed_op distinct_ops.
Proof.
  unfold distinct_ops, well_formed_op, well_formed_string, stamp.
  repeat constructor; simpl; try lia; try reflexivity.
Defined.

Lemma run_well_formed_witness :
  well_formed (todos (run distinct_ops initialState)).
Proof.
  apply (run_well_formed distinct_ops initialState distinct_ops_well_formed).
  constructor.
Defined.

Lemma add_then_delete_witness :
  todos (deleteTodo 1700000000002
           (add (str "Call mum") 1700000000002 stamp shop_state))
    = todos shop_state.
Proof.
  apply (add_then_delete (str "Call mum") 1700000000002 stamp shop_state).
  reflexivity.
Defined.

Lemma cancel_discards_draft_witness :
  item_run 0 (IEditClick :: List.map IChange [str "x"; str "xy"] ++ [ICancel])
    (shop_state, mountItem (mkTodo 1700000000000 (str "Buy milk") false stamp))
  = (shop_state, mountItem (mkTodo 1700000000000 (str "Buy milk") false stamp)).
Proof.
  apply (cancel_discards_draft 0
           (mkTodo 1700000000000 (str "Buy milk") false stamp) shop_state
           [str "x"; str "xy"]).
  reflexivity.
Defined.

Example screen_events_result :
  todos (ui_run screen_events initialState)
    = [mkTodo 1700000000000 (str "Buy oat milk") true stamp].
Proof. reflexivity. Qed.

Example edit_events_result :
  item_run 0 edit_events
    (shop_state, mountItem (mkTodo 1700000000000 (str "Buy milk") false stamp))
  = (mkApp [ mkTodo 1700000000000 (str " Buy oat milk") true stamp;
             mkTodo 1700000000001 (str "Walk the dog") false stamp ] [],
     {| isEditing := false; editText := str " Buy oat milk" |}).
Proof. reflexivity. Qed.

Example trim_example :
  trim (str "  Buy milk ") = str "Buy milk" /\ trim [9%N; 160%N; 8232%N] = [].
Proof. by split. Qed.

Lemma session_reload_witness :
  load (snd (session distinct_ops (initialState, save (todos initialState) ∅)))
    = Returned tt
        {| localStorage := save (todos (run distinct_ops initialState)) ∅;
           console := [];
           todosCell := toJS (todos (run distinct_ops initialState)) |}.
Proof.
  assert (H0 : well_formed (todos initialState)) by constructor.
  exact (proj2 (session_reload distinct_ops initialState ∅ H0
                  distinct_ops_well_formed)).
Defined.

Lemma mount_restores_witness :
  mountApp (save sample_todos ∅)
    = Returned (Some sample_todos)
        {| localStorage := save sample_todos ∅; console := [];
           todosCell := toJS sample_todos |}.
Proof. exact (mount_restores sample_todos ∅ sample_todos_well_formed). Defined.

